(** * A shallow embedding of [cb::ThreadPool] (src/thread_pool.h)

    The header declares the pool object and defines, inline, the two
    [impl::FuncWrapper] templates and [ThreadPool::ScheduleAndGetFuture].
    Those are embedded below as programs of a small monad that threads the
    program state, propagates C++ exceptions and records the library calls
    that were made.  [std::promise], [std::future], [std::queue] and
    [std::condition_variable] are modelled after the C++ standard library
    clauses that the code relies on. *)

From stdpp Require Import base option list gmap.

Set Default Proof Using "Type".

(** ** Computations: state, exceptions, blocking, and a log of library calls *)

(** Addresses of shared states, and thread ids. *)
Abbreviation addr := nat (only parsing).
Abbreviation tid := nat (only parsing).

(** [std::future_errc]. *)
Inductive future_errc :=
  | broken_promise
  | future_already_retrieved
  | promise_already_satisfied
  | no_state.

(** What a C++ [throw] carries: a [std::future_error] of the library, or an
    exception of user code. *)
Inductive exn (E : Type) :=
  | FutureError (c : future_errc)
  | Thrown (e : E).
Arguments FutureError {E} c.
Arguments Thrown {E} e.

(** The library calls made by the embedded code, in program order. *)
Inductive event :=
  | EvMakeShared (p : addr)
  | EvGetFuture (p : addr)
  | EvCall
  | EvSetValue (p : addr)
  | EvLock
  | EvEmplace
  | EvUnlock
  | EvNotifyOne (woken : option tid).

Global Instance event_eq_dec : EqDecision event.
Proof. solve_decision. Defined.

(** How a call ends: it returns, an exception leaves it, or the calling
    thread is suspended inside it. *)
Inductive outcome (E A : Type) :=
  | Returned (a : A)
  | Raised (e : exn E)
  | Blocked.
Arguments Returned {E A} a.
Arguments Raised {E A} e.
Arguments Blocked {E A}.

Definition M (E S A : Type) : Type := S → outcome E A * S * list event.

Definition ret {E S A} (a : A) : M E S A := λ s, (Returned a, s, []).

Definition bind {E S A B} (m : M E S A) (k : A → M E S B) : M E S B :=
  λ s, match m s with
       | (Returned a, s', t) =>
           let '(o, s'', t') := k a s' in (o, s'', t ++ t')
       | (Raised e, s', t) => (Raised e, s', t)
       | (Blocked, s', t) => (Blocked, s', t)
       end.

Definition throw {E S A} (e : exn E) : M E S A := λ s, (Raised e, s, []).
Definition emit {E S} (ev : event) : M E S unit := λ s, (Returned tt, s, [ev]).
Definition get {E S} : M E S S := λ s, (Returned s, s, []).
Definition put {E S} (s : S) : M E S unit := λ _, (Returned tt, s, []).
Definition modify {E S} (f : S → S) : M E S unit := λ s, (Returned tt, f s, []).

Declare Scope prog_scope.
Delimit Scope prog_scope with prog.
Notation "x <- m ;; k" := (bind m (λ x, k))
  (at level 100, m at next level, right associativity) : prog_scope.
Notation "m ;;; k" := (bind m (λ _, k))
  (at level 100, right associativity) : prog_scope.
Local Open Scope prog_scope.

(** Run a computation of a component of the state inside the whole state. *)
Definition zoom {E S S' A} (proj : S → S') (upd : S' → S → S)
    (m : M E S' A) : M E S A :=
  λ s, let '(o, s', t) := m (proj s) in (o, upd s' s, t).

(** ** [std::promise<T>] and [std::future<T>]

    A promise and the future obtained from it refer to one shared state.
    The shared state holds nothing until it is made ready, then a value or an
    exception; it also remembers whether its future was handed out. *)

Inductive slot (T E : Type) :=
  | Empty
  | Value (v : T)
  | Failure (e : exn E).
Arguments Empty {T E}.
Arguments Value {T E} v.
Arguments Failure {T E} e.

Record shared_state (T E : Type) := SharedState {
  result : slot T E;
  retrieved : bool;
}.
Arguments SharedState {T E}.
Arguments result {T E}.
Arguments retrieved {T E}.

(** [std::future<T>]: [fstate = None] is a future with [valid() == false]. *)
Record future := Future { fstate : option addr }.

Definition valid (f : future) : bool := bool_decide (is_Some (fstate f)).

(** What user code and work items act on: the state of the embedding
    application, and the shared states that are alive.  The shared states of
    one world hold results of one type [T]: a pool is looked at for one
    instantiation of [ScheduleAndGetFuture] at a time.  Its queue holds
    closures, so nothing in the pool itself depends on [T]. *)
Record world (U T E : Type) := World {
  user : U;
  heap : gmap addr (shared_state T E);
}.
Arguments World {U T E}.
Arguments user {U T E}.
Arguments heap {U T E}.

Section Promise.
Context {U T E : Type}.
#[local] Abbreviation world := (world U T E).
#[local] Abbreviation prog := (M E world).

Definition set_heap (h : gmap addr (shared_state T E)) (w : world) : world :=
  World (user w) h.
Definition set_user (u : U) (w : world) : world := World u (heap w).

(** [std::make_shared<std::promise<T>>()]: a new shared state, not ready,
    future not yet retrieved. *)
Definition make_shared_promise : prog addr :=
  w <- get;;
  let p := fresh (dom (heap w)) in
  put (set_heap (<[p := SharedState Empty false]> (heap w)) w);;;
  emit (EvMakeShared p);;;
  ret p.

(** [promise::get_future()]: throws [future_already_retrieved] on the second
    call, [no_state] without a shared state. *)
Definition get_future (p : addr) : prog future :=
  w <- get;;
  match heap w !! p with
  | None => throw (FutureError no_state)
  | Some st =>
      if retrieved st then throw (FutureError future_already_retrieved)
      else
        put (set_heap (<[p := SharedState (result st) true]> (heap w)) w);;;
        emit (EvGetFuture p);;;
        ret (Future (Some p))
  end.

(** [promise::set_value(v)]: stores the value and makes the state ready;
    throws [promise_already_satisfied] if a value or exception is already
    stored. *)
Definition set_value (p : addr) (v : T) : prog unit :=
  w <- get;;
  match heap w !! p with
  | None => throw (FutureError no_state)
  | Some st =>
      match result st with
      | Empty =>
          put (set_heap (<[p := SharedState (Value v) (retrieved st)]> (heap w)) w);;;
          emit (EvSetValue p)
      | _ => throw (FutureError promise_already_satisfied)
      end
  end.

(** [~promise()]: abandoning a shared state that is not ready stores a
    [broken_promise] error in it. *)
Definition abandon (p : addr) (w : world) : world :=
  match heap w !! p with
  | Some (SharedState Empty r) =>
      set_heap (<[p := SharedState (Failure (FutureError broken_promise)) r]> (heap w)) w
  | _ => w
  end.

(** What a read of a future gives. *)
Inductive get_result :=
  | GetBlocks
  | Got (v : T)
  | Rethrown (e : exn E)
  | NoState.

(** [future::get()]: waits until the shared state is ready, then hands out
    the value or rethrows the stored exception, and releases the shared
    state: [valid()] is false afterwards.  Called on a future that is not
    valid, the standard leaves the behaviour undefined and advises
    implementations to throw [future_error(no_state)]. *)
Definition future_get (f : future) (w : world) : get_result * future :=
  match fstate f with
  | None => (NoState, f)
  | Some p =>
      match heap w !! p with
      | None => (NoState, f)
      | Some st =>
          match result st with
          | Empty => (GetBlocks, f)
          | Value v => (Got v, Future None)
          | Failure e => (Rethrown e, Future None)
          end
      end
  end.

Inductive wait_result := WaitBlocks | WaitReady | WaitNoState.

(** [future::wait()]: waits until the shared state is ready; the future
    stays valid. *)
Definition future_wait (f : future) (w : world) : wait_result * future :=
  match fstate f with
  | None => (WaitNoState, f)
  | Some p =>
      match heap w !! p with
      | None => (WaitNoState, f)
      | Some st =>
          match result st with
          | Empty => (WaitBlocks, f)
          | _ => (WaitReady, f)
          end
      end
  end.

(** Repeated reads through one handle. *)
Fixpoint future_get_n (n : nat) (f : future) (w : world) : list get_result :=
  match n with
  | 0 => []
  | S n => let '(r, f') := future_get f w in r :: future_get_n n f' w
  end.

End Promise.

(** ** Callables

    The [func] handed to the pool is user code: applied to its bound
    arguments it acts on the application's state and either returns a value
    or throws.  It has no access to the promise, which only the wrapper's
    closure and the future share. *)

Inductive call_result (R E : Type) :=
  | Ret (r : R)
  | Throw (e : E).
Arguments Ret {R E} r.
Arguments Throw {R E} e.

Definition callable (U E Args R : Type) : Type := Args → U → call_result R E * U.

(** The call expression [func(std::forward<ArgsT>(args)...)]. *)
Definition call {U T E Args R} (func : callable U E Args R) (args : Args)
    : M E (world U T E) R :=
  λ w, match func args (user w) with
       | (Ret r, u) => (Returned r, set_user u w, [EvCall])
       | (Throw e, u) => (Raised (Thrown e), set_user u w, [EvCall])
       end.

(** ** [impl::FuncWrapper]

    [std::function<void()>] is a closure; running it is applying it to the
    world.  The primary template serves every [ReturnT]; the specialization
    serves [void], for which [std::promise<void>] stores no value: its shared
    state is modelled with payload [unit], [Value tt] standing for "ready, no
    value". *)

Definition function_void (U T E : Type) : Type := M E (world U T E) unit.

Class FuncWrapper (ReturnT : Type) :=
  GetWrapped : ∀ {U E Args : Type},
    callable U E Args ReturnT → addr → Args → function_void U ReturnT E.

(** [return [promise, func, args...]() mutable {
       promise->set_value(func(std::forward<ArgsT>(args)...)); };] *)
#[export] Instance FuncWrapper_ReturnT (ReturnT : Type) : FuncWrapper ReturnT | 10 :=
  λ U E Args func promise args,
    (v <- call func args;;
     set_value promise v).

(** [return [promise, func, args...]() {
       func(std::forward<ArgsT>(args)...);
       promise->set_value(); };] *)
#[export] Instance FuncWrapper_void : FuncWrapper unit | 0 :=
  λ U E Args func promise args,
    (call func args;;;
     set_value promise tt).

(** ** [class ThreadPool] *)

(** [struct WorkItem { std::function<void(void)> func; };] *)
Record WorkItem (U T E : Type) := { func : function_void U T E }.
Arguments Build_WorkItem {U T E}.
Arguments func {U T E}.

(** The data members.  [mu_] is [true] while a thread holds the mutex.  A
    condition variable is the list of threads blocked in its [wait];
    [std::queue] is a list whose head is [front()] and to whose end [emplace]
    adds. *)
Record ThreadPool (U T E : Type) := {
  num_workers_ : Z;
  exit_ : bool;
  mu_ : bool;
  work_ : list (WorkItem U T E);
  condvar_ : list tid;
  workers_ : list tid;
  work_done_condvar_ : list tid;
}.
Arguments Build_ThreadPool {U T E}.
Arguments num_workers_ {U T E}.
Arguments exit_ {U T E}.
Arguments mu_ {U T E}.
Arguments work_ {U T E}.
Arguments condvar_ {U T E}.
Arguments workers_ {U T E}.
Arguments work_done_condvar_ {U T E}.

(** The state a member function runs in: the pool object and the world. *)
Record pstate (U T E : Type) := PState {
  pool : ThreadPool U T E;
  mem : world U T E;
}.
Arguments PState {U T E}.
Arguments pool {U T E}.
Arguments mem {U T E}.

(** [std::condition_variable::notify_one()]: "if any threads are blocked
    waiting, unblocks one of those threads".  Which one is the
    implementation's choice, [choose]. *)
Definition notify_one (choose : list tid → nat) (waiting : list tid)
    : list tid * option tid :=
  let i := choose waiting `mod` length waiting in
  (delete i waiting, waiting !! i).

(** [std::condition_variable::notify_all()]: unblocks all of them. *)
Definition notify_all (waiting : list tid) : list tid * list tid :=
  ([], waiting).

Section ThreadPool.
Context {U T E : Type}.
Variable choose : list tid → nat.
#[local] Abbreviation pstate := (pstate U T E).
#[local] Abbreviation ThreadPool := (ThreadPool U T E).
#[local] Abbreviation WorkItem := (WorkItem U T E).

Definition set_pool (p : ThreadPool) (s : pstate) : pstate := PState p (mem s).
Definition set_mem (w : world U T E) (s : pstate) : pstate := PState (pool s) w.

Definition set_mu_ (b : bool) (p : ThreadPool) : ThreadPool :=
  Build_ThreadPool (num_workers_ p) (exit_ p) b (work_ p) (condvar_ p)
    (workers_ p) (work_done_condvar_ p).
Definition set_work_ (q : list WorkItem) (p : ThreadPool) : ThreadPool :=
  Build_ThreadPool (num_workers_ p) (exit_ p) (mu_ p) q (condvar_ p)
    (workers_ p) (work_done_condvar_ p).
Definition set_condvar_ (c : list tid) (p : ThreadPool) : ThreadPool :=
  Build_ThreadPool (num_workers_ p) (exit_ p) (mu_ p) (work_ p) c
    (workers_ p) (work_done_condvar_ p).

(** [std::lock_guard<std::mutex> scoped_lock(mu_);]: the caller is suspended
    while another thread holds [mu_]. *)
Definition lock_guard_mu_ : M E pstate unit :=
  λ s, if mu_ (pool s) then (Blocked, s, [])
       else (Returned tt, set_pool (set_mu_ true (pool s)) s, [EvLock]).

(** The end of the [lock_guard]'s scope. *)
Definition unlock_mu_ : M E pstate unit :=
  modify (λ s, set_pool (set_mu_ false (pool s)) s);;;
  emit EvUnlock.

(** [work_.emplace(std::move(work));] *)
Definition work_emplace (work : WorkItem) : M E pstate unit :=
  modify (λ s, set_pool (set_work_ (work_ (pool s) ++ [work]) (pool s)) s);;;
  emit EvEmplace.

(** [condvar_.notify_one();] *)
Definition condvar_notify_one : M E pstate unit :=
  s <- get;;
  let '(waiting, woken) := notify_one choose (condvar_ (pool s)) in
  put (set_pool (set_condvar_ waiting (pool s)) s);;;
  emit (EvNotifyOne woken).

(** [ThreadPool::ScheduleAndGetFuture], lines 180-206. *)
Definition ScheduleAndGetFuture {FW : FuncWrapper T} {Args : Type}
    (func : callable U E Args T) (args : Args) : M E pstate future :=
  promise <- zoom mem set_mem make_shared_promise;;
  ret_future <- zoom mem set_mem (get_future promise);;
  let wrapped_func := GetWrapped func promise args in
  lock_guard_mu_;;;
  (let work := {| func := wrapped_func |} in
   work_emplace work);;;
  unlock_mu_;;;
  condvar_notify_one;;;
  ret ret_future.

End ThreadPool.

(** ** The members defined out of line

    The header only declares the constructor, the destructor, [Schedule],
    [Wait] and [ThreadLoop]; their bodies are not part of the sources.  They
    are modelled from the specification, as atomic steps of the threads that
    run them: each critical section under [mu_] is one step. *)

(** Modelled from the spec: a worker thread, with the states of the worker
    loop of section 4.2: waiting for work (blocked in [condvar_] when its id
    is in that list), executing an item it dequeued, or exited. *)
Inductive worker (U T E : Type) :=
  | Waiting
  | Executing (item : WorkItem U T E)
  | Exiting.
Arguments Waiting {U T E}.
Arguments Executing {U T E} item.
Arguments Exiting {U T E}.

(** Modelled from the spec: where the pool object is in its life (section
    4.4): in use, inside the teardown, or torn down. *)
Inductive lifecycle := Alive | Joining | Destroyed.

Global Instance lifecycle_eq_dec : EqDecision lifecycle.
Proof. solve_decision. Defined.

(** Modelled from the spec: the pool together with its worker threads, the
    thread with index [w] being the [w]-th of [workers_]. *)
Record system (U T E : Type) := System {
  obj : pstate U T E;
  threads : list (worker U T E);
  life : lifecycle;
}.
Arguments System {U T E}.
Arguments obj {U T E}.
Arguments threads {U T E}.
Arguments life {U T E}.

(** Modelled from the spec: what a thread may do next: a caller submits,
    waits or tears the pool down; a worker blocks, wakes up, dequeues,
    finishes its item or exits. *)
Inductive label (U T E Args : Type) :=
  | LSchedule (f : function_void U T E)
  | LScheduleAndGetFuture (f : callable U E Args T) (args : Args)
  | LBlock (w : tid)
  | LWake (w : tid)
  | LDequeue (w : tid)
  | LFinish (w : tid)
  | LExit (w : tid)
  | LWaitBlock (c : tid)
  | LWaitWake (c : tid)
  | LWaitReturn (c : tid)
  | LTeardown
  | LJoin.
Arguments LSchedule {U T E Args} f.
Arguments LScheduleAndGetFuture {U T E Args} f args.
Arguments LBlock {U T E Args} w.
Arguments LWake {U T E Args} w.
Arguments LDequeue {U T E Args} w.
Arguments LFinish {U T E Args} w.
Arguments LExit {U T E Args} w.
Arguments LWaitBlock {U T E Args} c.
Arguments LWaitWake {U T E Args} c.
Arguments LWaitReturn {U T E Args} c.
Arguments LTeardown {U T E Args}.
Arguments LJoin {U T E Args}.

(** What a step lets an observer see, for stating properties of runs. *)
Inductive obs (U T E : Type) :=
  | ObsEnqueue (item : WorkItem U T E)
  | ObsDequeue (w : tid) (item : WorkItem U T E)
  | ObsExecute (w : tid) (item : WorkItem U T E)
  | ObsExit (w : tid)
  | ObsWaitReturn (c : tid)
  | ObsShutdown
  | ObsJoined.
Arguments ObsEnqueue {U T E} item.
Arguments ObsDequeue {U T E} w item.
Arguments ObsExecute {U T E} w item.
Arguments ObsExit {U T E} w.
Arguments ObsWaitReturn {U T E} c.
Arguments ObsShutdown {U T E}.
Arguments ObsJoined {U T E}.

Section Threads.
Context {U T E Args : Type} `{!FuncWrapper T}.
Variable choose : list tid → nat.
#[local] Abbreviation pstate := (pstate U T E).
#[local] Abbreviation ThreadPool := (ThreadPool U T E).
#[local] Abbreviation WorkItem := (WorkItem U T E).
#[local] Abbreviation worker := (worker U T E).
#[local] Abbreviation system := (system U T E).
#[local] Abbreviation label := (label U T E Args).
#[local] Abbreviation obs := (obs U T E).

Definition set_exit_ (b : bool) (p : ThreadPool) : ThreadPool :=
  Build_ThreadPool (num_workers_ p) b (mu_ p) (work_ p) (condvar_ p)
    (workers_ p) (work_done_condvar_ p).
Definition set_work_done_condvar_ (c : list tid) (p : ThreadPool) : ThreadPool :=
  Build_ThreadPool (num_workers_ p) (exit_ p) (mu_ p) (work_ p) (condvar_ p)
    (workers_ p) c.

Definition upd_pool (f : ThreadPool → ThreadPool) (s : system) : system :=
  System (set_pool (f (pool (obj s))) (obj s)) (threads s) (life s).
Definition set_obj (o : pstate) (s : system) : system :=
  System o (threads s) (life s).
Definition set_thread (w : tid) (t : worker) (s : system) : system :=
  System (obj s) (<[w := t]> (threads s)) (life s).
Definition set_life (l : lifecycle) (s : system) : system :=
  System (obj s) (threads s) l.

(** Modelled from the spec: the constructor, [Construct(workerCount)] of
    section 6: a fixed worker count, the shutdown flag clear, an empty queue,
    and one worker thread per count, each waiting for work. *)
Definition construct (num_workers : Z) (w0 : world U T E) : system :=
  let n := Z.to_nat num_workers in
  System
    (PState (Build_ThreadPool num_workers false false [] [] (seq 0 n) []) w0)
    (replicate n Waiting)
    Alive.

(** Modelled from the spec: [Schedule], the fire-and-forget submission of
    section 4.3, which "wraps it as a Work Item and enqueues it" without a
    result slot; enqueuing wakes one blocked worker (section 4.1). *)
Definition Schedule (f : function_void U T E) : M E pstate unit :=
  (lock_guard_mu_;;;
   (let work := {| func := f |} in
    work_emplace work);;;
   unlock_mu_;;;
   condvar_notify_one choose)%prog.

Definition is_executing (t : worker) : bool :=
  match t with Executing _ => true | _ => false end.

(** Modelled from the spec: the worker [w] is in its waiting state and not
    blocked in [condvar_]. *)
Definition ready (w : tid) (s : system) : bool :=
  match threads s !! w with
  | Some Waiting => bool_decide (w ∉ condvar_ (pool (obj s)))
  | _ => false
  end.

(** Modelled from the spec: the condition [Wait] waits for (section 4.4):
    "the queue is empty and no worker is currently executing an item". *)
Definition drained (s : system) : bool :=
  match work_ (pool (obj s)) with
  | [] => forallb (λ t, negb (is_executing t)) (threads s)
  | _ => false
  end.

(** Modelled from the spec: every thread of [workers_] has exited, which is
    what the teardown blocks for (section 4.4). *)
Definition all_exited (s : system) : bool :=
  forallb (λ w, match threads s !! w with
                | Some Exiting => true
                | _ => false
                end) (workers_ (pool (obj s))).

(** Modelled from the spec: one step of one thread.  Submissions are the
    caller's, and only while the pool is alive (section 4.4).  [ThreadLoop]
    follows section 4.2: a waiting worker blocks while there is neither work
    nor shutdown, dequeues the front item when there is one, exits on shutdown
    with an empty queue; an executing worker runs its item to completion,
    contains its failure, and wakes the threads blocked in [Wait] when nothing
    is queued or in flight any more.  [Wait] follows section 4.4, and the
    destructor too: it sets [exit_], wakes all workers, and returns once all
    of them have exited. *)
Definition exec (l : label) (s : system) : option (system * list obs) :=
  let p := pool (obj s) in
  match l with
  | LSchedule f =>
      match life s, Schedule f (obj s) with
      | Alive, (Returned _, o', _) =>
          Some (set_obj o' s, [ObsEnqueue {| func := f |}])
      | _, _ => None
      end
  | LScheduleAndGetFuture f args =>
      match life s, ScheduleAndGetFuture choose f args (obj s) with
      | Alive, (Returned _, o', _) =>
          (λ it, (set_obj o' s, [ObsEnqueue it])) <$> last (work_ (pool o'))
      | _, _ => None
      end
  | LBlock w =>
      if ready w s && negb (exit_ p) && bool_decide (work_ p = [])
      then Some (upd_pool (set_condvar_ (condvar_ p ++ [w])) s, [])
      else None
  | LWake w =>
      if bool_decide (w ∈ condvar_ p)
      then Some (upd_pool (set_condvar_ (filter (λ x, x ≠ w) (condvar_ p))) s, [])
      else None
  | LDequeue w =>
      match ready w s, work_ p with
      | true, it :: q =>
          Some (set_thread w (Executing it) (upd_pool (set_work_ q) s),
                [ObsDequeue w it])
      | _, _ => None
      end
  | LFinish w =>
      match threads s !! w with
      | Some (Executing it) =>
          match func it (mem (obj s)) with
          | (Blocked, _, _) => None
          | (_, m', _) =>
              let s' := set_thread w Waiting (set_obj (set_mem m' (obj s)) s) in
              Some (if drained s' then upd_pool (set_work_done_condvar_ []) s'
                    else s',
                    [ObsExecute w it])
          end
      | _ => None
      end
  | LExit w =>
      if ready w s && exit_ p && bool_decide (work_ p = [])
      then Some (set_thread w Exiting s, [ObsExit w])
      else None
  | LWaitBlock c =>
      if negb (drained s) && bool_decide (c ∉ work_done_condvar_ p)
      then Some (upd_pool (set_work_done_condvar_ (work_done_condvar_ p ++ [c])) s, [])
      else None
  | LWaitWake c =>
      if bool_decide (c ∈ work_done_condvar_ p)
      then Some (upd_pool (set_work_done_condvar_
                             (filter (λ x, x ≠ c) (work_done_condvar_ p))) s, [])
      else None
  | LWaitReturn c =>
      if drained s && bool_decide (c ∉ work_done_condvar_ p)
      then Some (s, [ObsWaitReturn c])
      else None
  | LTeardown =>
      match life s with
      | Alive =>
          Some (set_life Joining
                  (upd_pool (λ p, set_condvar_ (notify_all (condvar_ p)).1
                                    (set_exit_ true p)) s),
                [ObsShutdown])
      | _ => None
      end
  | LJoin =>
      match life s with
      | Joining =>
          if all_exited s then Some (set_life Destroyed s, [ObsJoined]) else None
      | _ => None
      end
  end.

(** A schedule of steps, run from a state: the state reached and what was
    observed on the way, or [None] if some step of it cannot be taken. *)
Fixpoint run (ls : list label) (s : system) : option (system * list obs) :=
  match ls with
  | [] => Some (s, [])
  | l :: ls =>
      match exec l s with
      | Some (s', o) =>
          match run ls s' with
          | Some (s'', tr) => Some (s'', o ++ tr)
          | None => None
          end
      | None => None
      end
  end.

Definition enqueued (tr : list obs) : list WorkItem :=
  omap (λ o, match o with ObsEnqueue it => Some it | _ => None end) tr.
Definition dequeued (tr : list obs) : list WorkItem :=
  omap (λ o, match o with ObsDequeue _ it => Some it | _ => None end) tr.
Definition executed (tr : list obs) : list WorkItem :=
  omap (λ o, match o with ObsExecute _ it => Some it | _ => None end) tr.
Definition shutdowns (tr : list obs) : nat :=
  length (omap (λ o, match o with ObsShutdown => Some tt | _ => None end) tr).

(** The items the workers hold. *)
Definition in_flight (ts : list worker) : list WorkItem :=
  omap (λ t, match t with Executing it => Some it | _ => None end) ts.

End Threads.

(** ** What a call of [ScheduleAndGetFuture] leaves behind *)

Section Submission.
Context {U T E Args : Type} {FW : FuncWrapper T}.
Variable choose : list tid → nat.

(** The address of the shared state that a submission in [s] allocates. *)
Definition slot_of (s : pstate U T E) : addr := fresh (dom (heap (mem s))).

(** The work item that a submission in [s] enqueues. *)
Definition item_of (s : pstate U T E) (func : callable U E Args T) (args : Args)
    : WorkItem U T E :=
  {| func := GetWrapped func (slot_of s) args |}.

(** The state in which a submission in [s] returns. *)
Definition after_submission (s : pstate U T E) (func : callable U E Args T)
    (args : Args) : pstate U T E :=
  PState
    (Build_ThreadPool (num_workers_ (pool s)) (exit_ (pool s)) false
       (work_ (pool s) ++ [item_of s func args])
       (notify_one choose (condvar_ (pool s))).1
       (workers_ (pool s)) (work_done_condvar_ (pool s)))
    (World (user (mem s))
       (<[slot_of s := SharedState Empty true]>
          (<[slot_of s := SharedState Empty false]> (heap (mem s))))).

End Submission.

(** ** Invariants of the threads' steps *)

Section Invariants.
Context {U T E : Type}.

(** Every item that was enqueued is still queued or was dequeued, in the order
    of the enqueues; every item that was dequeued is held by a worker or was
    executed. *)
Definition accounted (s : system U T E) (tr : list (obs U T E)) : Prop :=
  enqueued tr = dequeued tr ++ work_ (pool (obj s))
  ∧ dequeued tr ≡ₚ executed tr ++ in_flight (threads s).

(** The pool has [n] workers; [exit_] is set exactly from the one shutdown on;
    from then on no thread is blocked in [condvar_], and the pool is destroyed
    only with all workers exited. *)
Definition lifecycle_ok (n : nat) (s : system U T E) (tr : list (obs U T E))
    : Prop :=
  workers_ (pool (obj s)) = seq 0 n
  ∧ length (threads s) = n
  ∧ match life s with
    | Alive => exit_ (pool (obj s)) = false ∧ shutdowns tr = 0
    | Joining =>
        exit_ (pool (obj s)) = true ∧ condvar_ (pool (obj s)) = []
        ∧ shutdowns tr = 1
    | Destroyed =>
        exit_ (pool (obj s)) = true ∧ condvar_ (pool (obj s)) = []
        ∧ shutdowns tr = 1 ∧ Forall (λ t, t = Exiting) (threads s)
    end.

End Invariants.

(** ** Concrete inputs

    An application whose state is a counter: functions that return a value,
    return nothing, or throw; a pool with two workers, both blocked in
    [condvar_]. *)

Module Demo.

Definition first_waiter : list tid → nat := λ _, 0.

Definition answer : callable nat nat unit nat := λ _ u, (Ret (u + 41), S u).
Definition tick : callable nat nat unit unit := λ _ u, (Ret tt, S u).
Definition failing : callable nat nat unit nat := λ _ u, (Throw 7, S u).
Definition failing_void : callable nat nat unit unit := λ _ u, (Throw 7, S u).

Definition idle_pool {T : Type} : ThreadPool nat T nat :=
  Build_ThreadPool 2 false false [] [0; 1] [0; 1] [].

Definition start {T : Type} : pstate nat T nat := PState idle_pool (World 0 ∅).

(** The same pool while another thread holds [mu_]. *)
Definition contended {T : Type} : pstate nat T nat :=
  PState (Build_ThreadPool 2 false true [] [0; 1] [0; 1] []) (World 0 ∅).

(** The world after a submission in [start]: one shared state, at address
    [0], whose future has been retrieved. *)
Definition submitted {T : Type} : world nat T nat :=
  World 0 {[ 0 := SharedState Empty true ]}.

(** Submit in [start], then run the item that was enqueued: how the item
    ended, and the world it left. *)
Definition submit_and_run (f : callable nat nat unit nat)
    : option (outcome nat unit * world nat nat nat) :=
  let s1 := (ScheduleAndGetFuture first_waiter f tt start).1.2 in
  (λ item, (func item (mem s1)).1) <$> last (work_ (pool s1)).

Definition incr : WorkItem nat unit nat :=
  {| func := λ w, (Returned tt, set_user (S (user w)) w, []) |}.
Definition twice : WorkItem nat unit nat :=
  {| func := λ w, (Returned tt, set_user (2 * user w) w, []) |}.

(** Two submissions to a pool of two workers.  Worker 1 dequeues the first
    item and worker 0 the second, which completes first; a caller waits
    meanwhile. *)
Definition schedule : list (label nat unit nat unit) :=
  [LBlock 0; LSchedule (func incr); LSchedule (func twice); LWaitBlock 9;
   LDequeue 1; LDequeue 0; LFinish 0; LFinish 1].

Definition shutdown : list (label nat unit nat unit) :=
  [LTeardown; LExit 0; LExit 1; LJoin].

End Demo.

(** ** The benchmark's use of the pool (test/thread_pool_benchmarks.cc)

    [BM_ThreadPoolUsage] fills an array of futures with one submission per
    entry and then waits for each of them. *)

(** [constexpr uint64_t kNumIterations = 50000;] *)
Definition kNumIterations : Z := 50000.

(** [constexpr int kNumTasks = 10000;] *)
Definition kNumTasks : Z := 10000.

Section Benchmark.
Context {U E : Type}.
Variable choose : list tid → nat.

(** [void CpuTask(uint64_t n = kNumIterations)] iterates [std::cos] on a
    [double] and discards the result.  Its floating-point arithmetic is not
    modelled: it is any function of [n] on the application's state. *)
Variable CpuTask : Z → U → call_result unit E * U.

(** The lambda [[]() { CpuTask(); }]. *)
Definition task : callable U E unit unit := λ _ u, CpuTask kNumIterations u.

(** [for (std::size_t i = 0; i < futures.size(); ++i) {
       futures[i] = pool.ScheduleAndGetFuture([]() { CpuTask(); }); }],
    from index [i] on, with [k] entries to go. *)
Fixpoint submit_loop (k i : nat) (futures : list future)
    : M E (pstate U unit E) (list future) :=
  match k with
  | 0 => ret futures
  | S k =>
      f <- ScheduleAndGetFuture (FW := FuncWrapper_void) choose task tt;;
      submit_loop k (S i) (<[i := f]> futures)
  end.

(** The whole loop over the array [futures]. *)
Definition submit_all (futures : list future)
    : M E (pstate U unit E) (list future) :=
  submit_loop (length futures) 0 futures.

(** [for (auto& future : futures) { future.wait(); }]: the loop gets stuck in
    the first [wait] that does not return. *)
Fixpoint wait_loop (futures : list future) (w : world U unit E) : wait_result :=
  match futures with
  | [] => WaitReady
  | f :: fs =>
      match future_wait f w with
      | (WaitReady, _) => wait_loop fs w
      | (r, _) => r
      end
  end.

(** The work item that a submission of the lambda enqueues for the slot [p]. *)
Definition task_item (p : addr) : WorkItem U unit E :=
  {| func := GetWrapped (FuncWrapper := FuncWrapper_void) task p tt |}.

(** The world after the given work items were invoked one after the other,
    in the order of the list. *)
Definition invoke_all (items : list (WorkItem U unit E)) (w : world U unit E)
    : world U unit E :=
  foldl (λ w item, (func item w).1.2) w items.

End Benchmark.

Module BenchDemo.

(** A task that counts its calls. *)
Definition counting : Z → nat → call_result unit nat * nat :=
  λ _ u, (Ret tt, S u).

(** A shared state that already holds a value. *)
Definition satisfied : world nat nat nat :=
  World 0 {[ 0 := SharedState (Value 5) true ]}.
Definition satisfied_void : world nat unit nat :=
  World 0 {[ 0 := SharedState (Value tt) true ]}.

End BenchDemo.

(** * Properties *)

(** ** The promise and the future *)

Section PromiseFacts.
Context {U T E : Type}.
Implicit Types (w : world U T E) (p : addr) (st : shared_state T E).

Lemma make_shared_promise_run w :
  make_shared_promise w =
    (Returned (fresh (dom (heap w))),
     set_heap (<[fresh (dom (heap w)) := SharedState Empty false]> (heap w)) w,
     [EvMakeShared (fresh (dom (heap w)))]).
Proof. reflexivity. Qed.

Lemma fresh_unallocated w : heap w !! fresh (dom (heap w)) = None.
Proof. apply not_elem_of_dom, is_fresh. Qed.

Lemma get_future_run w p st :
  heap w !! p = Some st → retrieved st = false →
  get_future p w =
    (Returned (Future (Some p)),
     set_heap (<[p := SharedState (result st) true]> (heap w)) w,
     [EvGetFuture p]).
Proof.
  intros Hp Hr. unfold get_future, bind, get. simpl. rewrite Hp, Hr. reflexivity.
Qed.

Lemma set_value_run w p st v :
  heap w !! p = Some st → result st = Empty →
  set_value p v w =
    (Returned tt,
     set_heap (<[p := SharedState (Value v) (retrieved st)]> (heap w)) w,
     [EvSetValue p]).
Proof.
  intros Hp Hr. unfold set_value, bind, get. simpl. rewrite Hp, Hr. reflexivity.
Qed.

(** A promise is satisfied at most once. *)
Lemma set_value_twice w p st v :
  heap w !! p = Some st → result st ≠ Empty →
  set_value p v w = (Raised (FutureError promise_already_satisfied), w, []).
Proof.
  intros Hp Hr. unfold set_value, bind, get. simpl. rewrite Hp.
  by destruct (result st).
Qed.

Lemma future_get_ready w p st v :
  heap w !! p = Some st → result st = Value v →
  future_get (Future (Some p)) w = (Got v, Future None).
Proof. intros Hp Hr. unfold future_get. simpl. by rewrite Hp, Hr. Qed.

Lemma future_get_pending w p st :
  heap w !! p = Some st → result st = Empty →
  future_get (Future (Some p)) w = (GetBlocks, Future (Some p)).
Proof. intros Hp Hr. unfold future_get. simpl. by rewrite Hp, Hr. Qed.

Lemma future_get_n_invalid n w :
  future_get_n n (Future None) w = replicate n NoState.
Proof. induction n as [|n IH]; simpl; [done | by rewrite IH]. Qed.

End PromiseFacts.

(** ** The condition variable *)

(** [notify_one] takes exactly one thread out of a non-empty wait list and
    leaves the others blocked, in their order. *)
Lemma notify_one_spec choose waiting :
  match (notify_one choose waiting).2 with
  | Some t =>
      ∃ l1 l2, waiting = l1 ++ t :: l2
               ∧ (notify_one choose waiting).1 = l1 ++ l2
  | None => waiting = [] ∧ (notify_one choose waiting).1 = []
  end.
Proof.
  unfold notify_one. simpl.
  destruct waiting as [|t0 ws]; [done|].
  set (i := choose (t0 :: ws) `mod` length (t0 :: ws)).
  assert (Hi : i < length (t0 :: ws)) by (apply Nat.mod_upper_bound; simpl; lia).
  destruct (lookup_lt_is_Some_2 _ _ Hi) as [t Ht]. rewrite Ht.
  exists (take i (t0 :: ws)), (drop (S i) (t0 :: ws)). split.
  - symmetry. by apply take_drop_middle.
  - apply delete_take_drop.
Qed.

(** ** [ScheduleAndGetFuture], run to its end *)

Section SubmissionFacts.
Context {U T E Args : Type} {FW : FuncWrapper T}.
Variable choose : list tid → nat.
Implicit Types (s : pstate U T E) (func : callable U E Args T) (args : Args).

(** With [mu_] free the call returns. *)
Lemma ScheduleAndGetFuture_run s func args :
  mu_ (pool s) = false →
  ScheduleAndGetFuture choose func args s =
    (Returned (Future (Some (slot_of s))),
     after_submission choose s func args,
     [EvMakeShared (slot_of s); EvGetFuture (slot_of s); EvLock; EvEmplace;
      EvUnlock; EvNotifyOne (notify_one choose (condvar_ (pool s))).2]).
Proof.
  intros Hmu. unfold ScheduleAndGetFuture.
  unfold bind at 1. unfold zoom at 1. rewrite make_shared_promise_run.
  unfold bind at 1. unfold zoom at 1.
  erewrite get_future_run; [| apply lookup_insert_eq | done].
  unfold bind, lock_guard_mu_, work_emplace, unlock_mu_, condvar_notify_one,
    modify, emit, get, put, ret, bind. simpl. rewrite Hmu. simpl.
  destruct (notify_one choose (condvar_ (pool s))) as [waiting woken].
  reflexivity.
Qed.

(** With [mu_] held the caller is suspended at the [lock_guard], after the
    future was obtained and before anything is enqueued. *)
Lemma ScheduleAndGetFuture_blocked s func args :
  mu_ (pool s) = true →
  ScheduleAndGetFuture choose func args s =
    (Blocked,
     PState (pool s) (mem (after_submission choose s func args)),
     [EvMakeShared (slot_of s); EvGetFuture (slot_of s)]).
Proof.
  intros Hmu. unfold ScheduleAndGetFuture.
  unfold bind at 1. unfold zoom at 1. rewrite make_shared_promise_run.
  unfold bind at 1. unfold zoom at 1.
  erewrite get_future_run; [| apply lookup_insert_eq | done].
  unfold bind, lock_guard_mu_. simpl. rewrite Hmu. reflexivity.
Qed.

Lemma slot_after_submission s func args :
  heap (mem (after_submission choose s func args)) !! slot_of s =
    Some (SharedState Empty true).
Proof. simpl. apply lookup_insert_eq. Qed.

End SubmissionFacts.

(** ** The wrapped work item *)

Section WrapperFacts.
Context {U E Args : Type}.

Lemma GetWrapped_returns {ReturnT} (func : callable U E Args ReturnT) args promise
    (w : world U ReturnT E) v u' st :
  func args (user w) = (Ret v, u') →
  heap w !! promise = Some st → result st = Empty →
  GetWrapped (FuncWrapper := FuncWrapper_ReturnT ReturnT) func promise args w =
    (Returned tt,
     World u' (<[promise := SharedState (Value v) (retrieved st)]> (heap w)),
     [EvCall; EvSetValue promise]).
Proof.
  intros Hf Hp Hr. unfold GetWrapped, FuncWrapper_ReturnT.
  unfold bind, call. rewrite Hf.
  erewrite set_value_run; [reflexivity | exact Hp | exact Hr].
Qed.

Lemma GetWrapped_void_returns (func : callable U E Args unit) args promise
    (w : world U unit E) u' st :
  func args (user w) = (Ret tt, u') →
  heap w !! promise = Some st → result st = Empty →
  GetWrapped (FuncWrapper := FuncWrapper_void) func promise args w =
    (Returned tt,
     World u' (<[promise := SharedState (Value tt) (retrieved st)]> (heap w)),
     [EvCall; EvSetValue promise]).
Proof.
  intros Hf Hp Hr. unfold GetWrapped, FuncWrapper_void.
  unfold bind, call. rewrite Hf.
  erewrite set_value_run; [reflexivity | exact Hp | exact Hr].
Qed.

Lemma GetWrapped_throws {ReturnT} (func : callable U E Args ReturnT) args promise
    (w : world U ReturnT E) e u' :
  func args (user w) = (Throw e, u') →
  GetWrapped (FuncWrapper := FuncWrapper_ReturnT ReturnT) func promise args w =
    (Raised (Thrown e), World u' (heap w), [EvCall]).
Proof.
  intros Hf. unfold GetWrapped, FuncWrapper_ReturnT, bind, call. by rewrite Hf.
Qed.

Lemma GetWrapped_void_throws (func : callable U E Args unit) args promise
    (w : world U unit E) e u' :
  func args (user w) = (Throw e, u') →
  GetWrapped (FuncWrapper := FuncWrapper_void) func promise args w =
    (Raised (Thrown e), World u' (heap w), [EvCall]).
Proof.
  intros Hf. unfold GetWrapped, FuncWrapper_void, bind, call. by rewrite Hf.
Qed.

End WrapperFacts.

(** C7.  Invoked on a world in which its slot is still empty, the work item
    wrapped around a function that returns [v] calls the function once and
    then writes the slot once: it makes exactly the calls [func(args...)] and
    [set_value], returns normally, and leaves the slot holding [v].  The
    wrapper for [void] does the same with the one value of [unit], which
    stands for "ready, no value": both fill the slot in the same way. *)
Theorem wrapped_item_fills_slot_once :
  (∀ (U ReturnT E Args : Type) (func : callable U E Args ReturnT) (args : Args)
     (promise : addr) (w : world U ReturnT E) (v : ReturnT) (u' : U) (r : bool),
     func args (user w) = (Ret v, u') →
     heap w !! promise = Some (SharedState Empty r) →
     ∃ w', GetWrapped (FuncWrapper := FuncWrapper_ReturnT ReturnT)
             func promise args w
             = (Returned tt, w', [EvCall; EvSetValue promise])
           ∧ user w' = u'
           ∧ heap w' = <[promise := SharedState (Value v) r]> (heap w))
  ∧
  (∀ (U E Args : Type) (func : callable U E Args unit) (args : Args)
     (promise : addr) (w : world U unit E) (u' : U) (r : bool),
     func args (user w) = (Ret tt, u') →
     heap w !! promise = Some (SharedState Empty r) →
     ∃ w', GetWrapped (FuncWrapper := FuncWrapper_void) func promise args w
             = (Returned tt, w', [EvCall; EvSetValue promise])
           ∧ user w' = u'
           ∧ heap w' = <[promise := SharedState (Value tt) r]> (heap w)).
Proof.
  split.
  - intros U ReturnT E Args func args promise w v u' r Hf Hp.
    eexists. split; [|split]; [eapply GetWrapped_returns; eauto | done..].
  - intros U E Args func args promise w u' r Hf Hp.
    eexists. split; [|split]; [eapply GetWrapped_void_returns; eauto | done..].
Qed.

Lemma wrapped_item_fills_slot_once_witness :
  (∃ w', GetWrapped (FuncWrapper := FuncWrapper_ReturnT nat)
           Demo.answer 0 tt Demo.submitted
           = (Returned tt, w', [EvCall; EvSetValue 0])
         ∧ user w' = 1
         ∧ heap w' = <[0 := SharedState (Value 41) true]> (heap Demo.submitted))
  ∧
  (∃ w', GetWrapped (FuncWrapper := FuncWrapper_void)
           Demo.tick 0 tt Demo.submitted
           = (Returned tt, w', [EvCall; EvSetValue 0])
         ∧ user w' = 1
         ∧ heap w' = <[0 := SharedState (Value tt) true]> (heap Demo.submitted)).
Proof.
  split.
  - apply (proj1 wrapped_item_fills_slot_once); reflexivity.
  - apply (proj2 wrapped_item_fills_slot_once); reflexivity.
Defined.

(** C1, as amended.  When the function throws, neither wrapper catches: the
    exception leaves the work item and reaches whoever invoked it, no
    [set_value] (and nothing else) is done to the shared states, and so every
    handle reads exactly as it did before the item ran. *)
Theorem failure_leaves_wrapped_item :
  (∀ (U ReturnT E Args : Type) (func : callable U E Args ReturnT) (args : Args)
     (promise : addr) (w : world U ReturnT E) (e : E) (u' : U),
     func args (user w) = (Throw e, u') →
     ∃ w', GetWrapped (FuncWrapper := FuncWrapper_ReturnT ReturnT)
             func promise args w
             = (Raised (Thrown e), w', [EvCall])
           ∧ user w' = u' ∧ heap w' = heap w
           ∧ ∀ f, future_get f w' = future_get f w)
  ∧
  (∀ (U E Args : Type) (func : callable U E Args unit) (args : Args)
     (promise : addr) (w : world U unit E) (e : E) (u' : U),
     func args (user w) = (Throw e, u') →
     ∃ w', GetWrapped (FuncWrapper := FuncWrapper_void) func promise args w
             = (Raised (Thrown e), w', [EvCall])
           ∧ user w' = u' ∧ heap w' = heap w
           ∧ ∀ f, future_get f w' = future_get f w).
Proof.
  split.
  - intros U ReturnT E Args func args promise w e u' Hf.
    eexists. split_and!; [by apply GetWrapped_throws | done..].
  - intros U E Args func args promise w e u' Hf.
    eexists. split_and!; [by apply GetWrapped_void_throws | done..].
Qed.

Lemma failure_leaves_wrapped_item_witness :
  (∃ w', GetWrapped (FuncWrapper := FuncWrapper_ReturnT nat)
           Demo.failing 0 tt Demo.submitted
           = (Raised (Thrown 7), w', [EvCall])
         ∧ user w' = 1 ∧ heap w' = heap Demo.submitted
         ∧ ∀ f, future_get f w' = future_get f Demo.submitted)
  ∧
  (∃ w', GetWrapped (FuncWrapper := FuncWrapper_void)
           Demo.failing_void 0 tt Demo.submitted
           = (Raised (Thrown 7), w', [EvCall])
         ∧ user w' = 1 ∧ heap w' = heap Demo.submitted
         ∧ ∀ f, future_get f w' = future_get f Demo.submitted).
Proof.
  split.
  - apply (proj1 failure_leaves_wrapped_item). reflexivity.
  - apply (proj2 failure_leaves_wrapped_item). reflexivity.
Defined.

(** C1 as stated fails.  A function that throws [7] is submitted and its work
    item is run: the item ends with the exception [7] instead of returning,
    and a [get] on the handle then finds the shared state not ready, so it
    blocks; once the item, the last owner of the promise, is destroyed, [get]
    rethrows [broken_promise].  In neither case does it rethrow [7]. *)
Lemma failure_not_resurfaced :
  (ScheduleAndGetFuture Demo.first_waiter Demo.failing tt Demo.start).1.1
    = Returned (Future (Some 0))
  ∧ ∃ w',
      Demo.submit_and_run Demo.failing = Some (Raised (Thrown 7), w')
      ∧ future_get (Future (Some 0)) w' = (GetBlocks, Future (Some 0))
      ∧ future_get (Future (Some 0)) (abandon 0 w')
        = (Rethrown (FutureError broken_promise), Future None).
Proof.
  split; [reflexivity|]. eexists. split; [vm_compute; reflexivity|].
  split; reflexivity.
Qed.

(** ** The submission *)

Section SubmissionProperties.
Context {U T E Args : Type}.
Variable choose : list tid → nat.
Implicit Types (s : pstate U T E) (func : callable U E Args T) (args : Args).

(** C2, as amended.  The call returns a handle on a fresh slot [p].  Once the
    work item has run in a world where the function returns [v], the slot
    holds [v]: [wait] on the handle returns at once and leaves the handle as
    it is, and the first [get] returns [v] at once.  That [get] releases the
    shared state, so of any number of reads through the handle the first
    gives [v] and all later ones find no state. *)
Theorem first_get_returns_value_and_invalidates s func args :
  mu_ (pool s) = false →
  ∃ p s1 tr,
    ScheduleAndGetFuture (FW := FuncWrapper_ReturnT T) choose func args s
      = (Returned (Future (Some p)), s1, tr)
    ∧ ∀ (w : world U T E) (v : T) (u' : U),
        heap w !! p = heap (mem s1) !! p →
        func args (user w) = (Ret v, u') →
        ∃ w', GetWrapped (FuncWrapper := FuncWrapper_ReturnT T) func p args w
                = (Returned tt, w', [EvCall; EvSetValue p])
              ∧ future_wait (Future (Some p)) w' = (WaitReady, Future (Some p))
              ∧ future_get (Future (Some p)) w' = (Got v, Future None)
              ∧ ∀ n, future_get_n (S n) (Future (Some p)) w'
                     = Got v :: replicate n NoState.
Proof.
  intros Hmu. eexists _, _, _. split; [by apply ScheduleAndGetFuture_run|].
  intros w v u' Hp Hf. rewrite slot_after_submission in Hp.
  eexists. split; [eapply GetWrapped_returns; eauto|]. simpl.
  assert (Hget : future_get (Future (Some (slot_of s)))
            (World u' (<[slot_of s := SharedState (Value v) true]> (heap w)))
          = (Got v, Future None)).
  { eapply future_get_ready; [apply lookup_insert_eq | done]. }
  split; [|split; [exact Hget|]].
  - unfold future_wait. simpl. by rewrite lookup_insert_eq.
  - intros n. simpl. rewrite Hget. by rewrite future_get_n_invalid.
Qed.

Context {FW : FuncWrapper T}.

(** C6.  A call that gets the mutex notifies [condvar_] exactly once, after
    the enqueue, with [notify_one]: when threads are blocked in it, exactly
    one of them is taken out of the wait list and all others stay blocked;
    when none is, the list stays empty. *)
Theorem enqueue_wakes_exactly_one_waiter s func args :
  mu_ (pool s) = false →
  ∃ fut s1 woken,
    ScheduleAndGetFuture choose func args s
      = (Returned fut, s1,
         [EvMakeShared (slot_of s); EvGetFuture (slot_of s); EvLock; EvEmplace;
          EvUnlock; EvNotifyOne woken])
    ∧ length (condvar_ (pool s1)) = length (condvar_ (pool s)) - 1
    ∧ match woken with
      | Some t => ∃ l1 l2, condvar_ (pool s) = l1 ++ t :: l2
                           ∧ condvar_ (pool s1) = l1 ++ l2
      | None => condvar_ (pool s) = [] ∧ condvar_ (pool s1) = []
      end.
Proof.
  intros Hmu.
  pose proof (ScheduleAndGetFuture_run choose s func args Hmu) as Hrun.
  pose proof (notify_one_spec choose (condvar_ (pool s))) as Hn.
  unfold after_submission in Hrun.
  destruct (notify_one choose (condvar_ (pool s))) as [waiting woken].
  eexists _, _, woken. split; [exact Hrun|]. simpl in *.
  destruct woken as [t|].
  - destruct Hn as (l1 & l2 & -> & ->). split; [|by eauto].
    rewrite !length_app. simpl. lia.
  - by destruct Hn as [-> ->].
Qed.

(** C8.  The future is obtained from the promise of a fresh slot [p] before
    the lock is taken and the item enqueued.  A call that gets the mutex
    returns that future, valid and bound to [p], with the item wrapped around
    [p] at the back of the queue and [p] not yet written: nothing of the
    function has run.  A call that finds the mutex held is suspended with the
    future already obtained and nothing enqueued. *)
Theorem handle_bound_before_enqueue s func args :
  let p := fresh (dom (heap (mem s))) in
  (mu_ (pool s) = false →
   ∃ s1 woken,
     ScheduleAndGetFuture choose func args s
       = (Returned (Future (Some p)), s1,
          [EvMakeShared p; EvGetFuture p; EvLock; EvEmplace; EvUnlock;
           EvNotifyOne woken])
     ∧ heap (mem s) !! p = None
     ∧ heap (mem s1) !! p = Some (SharedState Empty true)
     ∧ valid (Future (Some p)) = true
     ∧ future_get (Future (Some p)) (mem s1) = (GetBlocks, Future (Some p))
     ∧ work_ (pool s1) = work_ (pool s) ++ [{| func := GetWrapped func p args |}])
  ∧
  (mu_ (pool s) = true →
   ∃ s1,
     ScheduleAndGetFuture choose func args s
       = (Blocked, s1, [EvMakeShared p; EvGetFuture p])
     ∧ heap (mem s1) !! p = Some (SharedState Empty true)
     ∧ work_ (pool s1) = work_ (pool s)).
Proof.
  intros p. split; intros Hmu.
  - eexists _, _. split; [by apply ScheduleAndGetFuture_run|].
    split; [apply fresh_unallocated|].
    split; [apply slot_after_submission|]. split; [done|].
    split; [|done].
    eapply future_get_pending; [apply slot_after_submission | done].
  - eexists. split; [by apply ScheduleAndGetFuture_blocked|].
    split; [apply slot_after_submission | done].
Qed.

(** C10.  A call that gets the mutex returns with exactly one item added at
    the back of [work_], and with [exit_], [num_workers_], [workers_], [mu_]
    and [work_done_condvar_] as they were.  A call that finds the mutex held
    is suspended and has not touched the pool object at all. *)
Theorem submission_appends_one_item s func args :
  (mu_ (pool s) = false →
   ∃ fut s1 tr item,
     ScheduleAndGetFuture choose func args s = (Returned fut, s1, tr)
     ∧ work_ (pool s1) = work_ (pool s) ++ [item]
     ∧ length (work_ (pool s1)) = S (length (work_ (pool s)))
     ∧ exit_ (pool s1) = exit_ (pool s)
     ∧ num_workers_ (pool s1) = num_workers_ (pool s)
     ∧ workers_ (pool s1) = workers_ (pool s)
     ∧ mu_ (pool s1) = mu_ (pool s)
     ∧ work_done_condvar_ (pool s1) = work_done_condvar_ (pool s))
  ∧
  (mu_ (pool s) = true →
   ∃ s1 tr,
     ScheduleAndGetFuture choose func args s = (Blocked, s1, tr)
     ∧ pool s1 = pool s).
Proof.
  split; intros Hmu.
  - eexists _, _, _, _. split; [by apply ScheduleAndGetFuture_run|].
    simpl. rewrite length_app, Hmu. simpl. repeat split; lia.
  - eexists _, _. split; [by apply ScheduleAndGetFuture_blocked | done].
Qed.

End SubmissionProperties.

Lemma first_get_returns_value_and_invalidates_witness :
  mu_ (pool (Demo.start (T := nat))) = false
  ∧ ∃ w', GetWrapped (FuncWrapper := FuncWrapper_ReturnT nat)
            Demo.answer 0 tt Demo.submitted
            = (Returned tt, w', [EvCall; EvSetValue 0])
          ∧ future_wait (Future (Some 0)) w' = (WaitReady, Future (Some 0))
          ∧ future_get (Future (Some 0)) w' = (Got 41, Future None)
          ∧ ∀ n, future_get_n (S n) (Future (Some 0)) w'
                 = Got 41 :: replicate n NoState.
Proof.
  split; [reflexivity|].
  destruct (first_get_returns_value_and_invalidates
              Demo.first_waiter Demo.start Demo.answer tt eq_refl)
    as (p & s1 & tr & Hrun & Hread).
  vm_compute in Hrun. injection Hrun as <- <- <-.
  apply (Hread Demo.submitted 41 1); reflexivity.
Defined.

(** C2 as stated fails.  A function that returns [41] is submitted and its
    work item is run, which writes the slot.  Of three reads through the
    returned handle only the first returns [41]; the second and third find
    the handle without a shared state. *)
Lemma second_get_has_no_state :
  (ScheduleAndGetFuture Demo.first_waiter Demo.answer tt Demo.start).1.1
    = Returned (Future (Some 0))
  ∧ ∃ w',
      Demo.submit_and_run Demo.answer = Some (Returned tt, w')
      ∧ heap w' !! 0 = Some (SharedState (Value 41) true)
      ∧ future_get_n 3 (Future (Some 0)) w' = [Got 41; NoState; NoState].
Proof.
  split; [reflexivity|]. eexists. split; [vm_compute; reflexivity|].
  split; reflexivity.
Qed.

Lemma enqueue_wakes_exactly_one_waiter_witness :
  mu_ (pool (Demo.start (T := nat))) = false
  ∧ condvar_ (pool (Demo.start (T := nat))) = [0; 1]
  ∧ ∃ fut s1 woken,
      ScheduleAndGetFuture Demo.first_waiter Demo.answer tt Demo.start
        = (Returned fut, s1,
           [EvMakeShared 0; EvGetFuture 0; EvLock; EvEmplace; EvUnlock;
            EvNotifyOne woken])
      ∧ length (condvar_ (pool s1)) = 1
      ∧ match woken with
        | Some t => ∃ l1 l2, [0; 1] = l1 ++ t :: l2
                             ∧ condvar_ (pool s1) = l1 ++ l2
        | None => [0; 1] = [] ∧ condvar_ (pool s1) = []
        end.
Proof.
  split; [reflexivity|]. split; [reflexivity|].
  exact (enqueue_wakes_exactly_one_waiter
           Demo.first_waiter Demo.start Demo.answer tt eq_refl).
Defined.

Lemma handle_bound_before_enqueue_witness :
  (mu_ (pool (Demo.start (T := nat))) = false
   ∧ ∃ s1 woken,
       ScheduleAndGetFuture Demo.first_waiter Demo.answer tt Demo.start
         = (Returned (Future (Some 0)), s1,
            [EvMakeShared 0; EvGetFuture 0; EvLock; EvEmplace; EvUnlock;
             EvNotifyOne woken])
       ∧ heap (mem (Demo.start (T := nat))) !! 0 = None
       ∧ heap (mem s1) !! 0 = Some (SharedState Empty true)
       ∧ valid (Future (Some 0)) = true
       ∧ future_get (Future (Some 0)) (mem s1) = (GetBlocks, Future (Some 0))
       ∧ work_ (pool s1) = [] ++ [{| func := GetWrapped Demo.answer 0 tt |}])
  ∧
  (mu_ (pool (Demo.contended (T := nat))) = true
   ∧ ∃ s1,
       ScheduleAndGetFuture Demo.first_waiter Demo.answer tt Demo.contended
         = (Blocked, s1, [EvMakeShared 0; EvGetFuture 0])
       ∧ heap (mem s1) !! 0 = Some (SharedState Empty true)
       ∧ work_ (pool s1) = []).
Proof.
  split; (split; [reflexivity|]).
  - exact (proj1 (handle_bound_before_enqueue
                    Demo.first_waiter Demo.start Demo.answer tt) eq_refl).
  - exact (proj2 (handle_bound_before_enqueue
                    Demo.first_waiter Demo.contended Demo.answer tt) eq_refl).
Defined.

Lemma submission_appends_one_item_witness :
  (mu_ (pool (Demo.start (T := nat))) = false
   ∧ ∃ fut s1 tr item,
       ScheduleAndGetFuture Demo.first_waiter Demo.answer tt Demo.start
         = (Returned fut, s1, tr)
       ∧ work_ (pool s1) = [] ++ [item]
       ∧ length (work_ (pool s1)) = 1
       ∧ exit_ (pool s1) = false
       ∧ num_workers_ (pool s1) = 2%Z
       ∧ workers_ (pool s1) = [0; 1]
       ∧ mu_ (pool s1) = false
       ∧ work_done_condvar_ (pool s1) = [])
  ∧
  (mu_ (pool (Demo.contended (T := nat))) = true
   ∧ ∃ s1 tr,
       ScheduleAndGetFuture Demo.first_waiter Demo.answer tt Demo.contended
         = (Blocked, s1, tr)
       ∧ pool s1 = pool Demo.contended).
Proof.
  split; (split; [reflexivity|]).
  - exact (proj1 (submission_appends_one_item
                    Demo.first_waiter Demo.start Demo.answer tt) eq_refl).
  - exact (proj2 (submission_appends_one_item
                    Demo.first_waiter Demo.contended Demo.answer tt) eq_refl).
Defined.

(** ** The threads *)

Section ThreadFacts.
Context {U T E Args : Type} {FW : FuncWrapper T}.
Variable choose : list tid → nat.
#[local] Abbreviation system := (system U T E).
#[local] Abbreviation label := (label U T E Args).
#[local] Abbreviation obs := (obs U T E).
#[local] Abbreviation worker := (worker U T E).
Implicit Types (s : system) (l : label) (tr : list obs) (ts : list worker).

Lemma Schedule_run (s : pstate U T E) f :
  mu_ (pool s) = false →
  Schedule choose f s =
    (Returned tt,
     PState
       (Build_ThreadPool (num_workers_ (pool s)) (exit_ (pool s)) false
          (work_ (pool s) ++ [{| func := f |}])
          (notify_one choose (condvar_ (pool s))).1
          (workers_ (pool s)) (work_done_condvar_ (pool s)))
       (mem s),
     [EvLock; EvEmplace; EvUnlock;
      EvNotifyOne (notify_one choose (condvar_ (pool s))).2]).
Proof.
  intros Hmu. unfold Schedule, bind, lock_guard_mu_, work_emplace, unlock_mu_,
    condvar_notify_one, modify, emit, get, put, bind. simpl. rewrite Hmu. simpl.
  destruct (notify_one choose (condvar_ (pool s))). reflexivity.
Qed.

Lemma Schedule_blocked (s : pstate U T E) f :
  mu_ (pool s) = true → Schedule choose f s = (Blocked, s, []).
Proof.
  intros Hmu. unfold Schedule, bind, lock_guard_mu_. by rewrite Hmu.
Qed.

(** What a submission step does to the system. *)
Lemma exec_submission l s s' o :
  (∃ f, l = LSchedule f) ∨ (∃ f args, l = LScheduleAndGetFuture f args) →
  exec choose l s = Some (s', o) →
  ∃ item, o = [ObsEnqueue item]
    ∧ work_ (pool (obj s')) = work_ (pool (obj s)) ++ [item]
    ∧ exit_ (pool (obj s')) = exit_ (pool (obj s))
    ∧ workers_ (pool (obj s')) = workers_ (pool (obj s))
    ∧ num_workers_ (pool (obj s')) = num_workers_ (pool (obj s))
    ∧ condvar_ (pool (obj s')) = (notify_one choose (condvar_ (pool (obj s)))).1
    ∧ mu_ (pool (obj s')) = false
    ∧ threads s' = threads s
    ∧ life s = Alive ∧ life s' = Alive.
Proof.
  intros [[f ->] | (f & args & ->)]; simpl; intros Hexec.
  - destruct (life s) eqn:Hlife; try done.
    destruct (mu_ (pool (obj s))) eqn:Hmu.
    + by rewrite Schedule_blocked in Hexec.
    + rewrite Schedule_run in Hexec by done. simplify_eq.
      eexists. split_and!; done.
  - destruct (life s) eqn:Hlife; try (by repeat case_match).
    destruct (mu_ (pool (obj s))) eqn:Hmu.
    + by rewrite ScheduleAndGetFuture_blocked in Hexec.
    + rewrite ScheduleAndGetFuture_run in Hexec by done.
      cbn [after_submission pool work_] in Hexec. rewrite last_snoc in Hexec.
      simpl in Hexec. simplify_eq. eexists. split_and!; done.
Qed.

Lemma in_flight_app ts1 ts2 :
  in_flight (ts1 ++ ts2) = in_flight ts1 ++ in_flight ts2.
Proof. apply omap_app. Qed.

Lemma in_flight_insert ts w t t' :
  ts !! w = Some t →
  in_flight ts = in_flight (take w ts) ++ in_flight [t] ++ in_flight (drop (S w) ts)
  ∧ in_flight (<[w := t']> ts)
    = in_flight (take w ts) ++ in_flight [t'] ++ in_flight (drop (S w) ts).
Proof.
  intros Hw. split.
  - rewrite <- (take_drop_middle ts w t Hw) at 1.
    by rewrite in_flight_app, <- (in_flight_app [t]).
  - rewrite insert_take_drop by (by eapply lookup_lt_Some).
    by rewrite in_flight_app, <- (in_flight_app [t']).
Qed.

Lemma in_flight_dequeue ts w item :
  ts !! w = Some Waiting →
  in_flight (<[w := Executing item]> ts) ≡ₚ item :: in_flight ts.
Proof.
  intros Hw. destruct (in_flight_insert ts w _ (Executing item) Hw) as [-> ->].
  simpl. by rewrite Permutation_middle.
Qed.

Lemma in_flight_finish ts w item :
  ts !! w = Some (Executing item) →
  in_flight ts ≡ₚ item :: in_flight (<[w := Waiting]> ts).
Proof.
  intros Hw. destruct (in_flight_insert ts w _ Waiting Hw) as [-> ->].
  simpl. by rewrite Permutation_middle.
Qed.

Lemma in_flight_exit ts w :
  ts !! w = Some Waiting →
  in_flight (<[w := Exiting]> ts) = in_flight ts.
Proof.
  intros Hw. by destruct (in_flight_insert ts w _ Exiting Hw) as [-> ->].
Qed.

Lemma idle_in_flight ts :
  forallb (λ t, negb (is_executing t)) ts = true ↔ in_flight ts = [].
Proof.
  induction ts as [|[] ts IH]; simpl; [done | exact IH | | exact IH].
  split; discriminate.
Qed.

Lemma drained_spec s :
  drained s = true ↔ work_ (pool (obj s)) = [] ∧ in_flight (threads s) = [].
Proof.
  unfold drained. destruct (work_ (pool (obj s))).
  - rewrite idle_in_flight. tauto.
  - split; [discriminate | intros [? _]; discriminate].
Qed.

Lemma in_flight_nil_lookup ts w item :
  in_flight ts = [] → ts !! w ≠ Some (Executing item).
Proof.
  intros Hnil Hw. destruct (in_flight_insert ts w _ Waiting Hw) as [Heq _].
  rewrite Hnil in Heq. simpl in Heq. by destruct (in_flight (take w ts)).
Qed.

Lemma ready_spec w s :
  ready w s = true → threads s !! w = Some Waiting ∧ w ∉ condvar_ (pool (obj s)).
Proof.
  unfold ready. destruct (threads s !! w) as [[]|]; try done.
  intros ?%bool_decide_eq_true. done.
Qed.

Lemma all_exited_spec s :
  workers_ (pool (obj s)) = seq 0 (length (threads s)) →
  all_exited s = true → Forall (λ t, t = Exiting) (threads s).
Proof.
  unfold all_exited. intros -> Hall. rewrite forallb_forall in Hall.
  apply Forall_lookup_2. intros w t Hw.
  assert (In w (seq 0 (length (threads s)))) as Hin.
  { apply in_seq. apply lookup_lt_Some in Hw. lia. }
  specialize (Hall w Hin). simpl in Hall. rewrite Hw in Hall. by destruct t.
Qed.

(** A property of the state and of what was observed so far that every step
    preserves holds along every schedule. *)
Lemma run_invariant (I : system → list obs → Prop) :
  (∀ l s tr s' o, I s tr → exec choose l s = Some (s', o) → I s' (tr ++ o)) →
  ∀ (ls : list label) s tr0 s' tr,
    I s tr0 → run choose ls s = Some (s', tr) → I s' (tr0 ++ tr).
Proof.
  intros Hstep ls.
  induction ls as [|l ls IH]; intros s tr0 s' tr HI Hrun; simpl in Hrun.
  - simplify_eq. by rewrite app_nil_r.
  - destruct (exec choose l s) as [[s1 o]|] eqn:Hexec; [|done].
    destruct (run choose ls s1) as [[s2 tr1]|] eqn:Hrest; [|done].
    simplify_eq. rewrite app_assoc. eapply IH; [|done]. by eapply Hstep.
Qed.

End ThreadFacts.

Section ThreadInvariants.
Context {U T E Args : Type} {FW : FuncWrapper T}.
Variable choose : list tid → nat.
#[local] Abbreviation system := (system U T E).
#[local] Abbreviation label := (label U T E Args).
#[local] Abbreviation obs := (obs U T E).
Implicit Types (s : system) (l : label) (ls : list label) (tr : list obs).

Lemma enqueued_app tr1 tr2 : enqueued (tr1 ++ tr2) = enqueued tr1 ++ enqueued tr2.
Proof. apply omap_app. Qed.
Lemma dequeued_app tr1 tr2 : dequeued (tr1 ++ tr2) = dequeued tr1 ++ dequeued tr2.
Proof. apply omap_app. Qed.
Lemma executed_app tr1 tr2 : executed (tr1 ++ tr2) = executed tr1 ++ executed tr2.
Proof. apply omap_app. Qed.
Lemma shutdowns_app tr1 tr2 : shutdowns (tr1 ++ tr2) = shutdowns tr1 + shutdowns tr2.
Proof. unfold shutdowns. by rewrite omap_app, length_app. Qed.

(** Take a step that is not a submission apart into the cases of its guards. *)
Ltac step_cases Hexec :=
  simpl in Hexec;
  repeat match type of Hexec with
         | context [ready ?w ?s] =>
             let Hr := fresh "Hready" in
             destruct (ready w s) eqn:Hr;
             [apply ready_spec in Hr as [? ?] | ];
             simpl in Hexec
         | context [if ?b then _ else _] =>
             let Hb := fresh "Hb" in destruct b eqn:Hb; simpl in Hexec
         | context [match ?x with _ => _ end] =>
             let Hx := fresh "Hx" in destruct x eqn:Hx; simpl in Hexec
         end;
  simplify_eq.

Lemma accounted_step l s tr s' o :
  accounted s tr → exec choose l s = Some (s', o) → accounted s' (tr ++ o).
Proof.
  intros [Hq Hw] Hexec. unfold accounted.
  rewrite enqueued_app, dequeued_app, executed_app.
  destruct l.
  1,2: eapply exec_submission in Hexec
         as (item & -> & -> & _ & _ & _ & _ & _ & -> & _);
    [|eauto..]; simpl; rewrite !app_nil_r, Hq, <- app_assoc; done.
  all: step_cases Hexec; simpl; rewrite ?app_nil_r; try done.
  all: split; [first [done | by rewrite Hq, <- app_assoc] |].
  all: match goal with
       | Hx : threads _ !! _ = Some (Executing _) |- _ =>
           rewrite Hw, (in_flight_finish _ _ _ Hx); by rewrite <- app_assoc
       | Hx : threads _ !! _ = Some Waiting |- context [Exiting] =>
           by rewrite in_flight_exit
       | Hx : threads _ !! _ = Some Waiting |- _ =>
           rewrite in_flight_dequeue by done; rewrite Hw;
           by rewrite <- app_assoc, <- Permutation_cons_append
       end.
Qed.

Lemma accounted_construct n (w0 : world U T E) : accounted (construct n w0) [].
Proof.
  split; [done|]. simpl. induction (Z.to_nat n) as [|k IH]; [done | exact IH].
Qed.

Lemma lifecycle_ok_step n l s tr s' o :
  lifecycle_ok n s tr → exec choose l s = Some (s', o) →
  lifecycle_ok n s' (tr ++ o).
Proof.
  intros (Hws & Hlen & Hlife) Hexec. unfold lifecycle_ok.
  rewrite shutdowns_app.
  destruct l.
  1,2: eapply exec_submission in Hexec
         as (item & -> & _ & -> & -> & _ & _ & _ & -> & Ha & ->);
    [|eauto..]; rewrite Ha in Hlife; simpl; rewrite Nat.add_0_r; done.
  all: step_cases Hexec; simpl; rewrite ?length_insert, ?Nat.add_0_r.
  all: split; [done|]; split; [done|].
  all: try match goal with
         | H : life _ = _ |- _ => rewrite H in Hlife
         end.
  all: try match goal with
         | |- context [life ?x] => revert Hlife; destruct (life x); intros Hlife
         end.
  all: simpl in *; destruct_and?.
  all: try match goal with
         | H : Forall _ (threads ?s), Hw : threads ?s !! _ = Some _ |- _ =>
             by pose proof (Forall_lookup_1 _ _ _ _ H Hw)
         | H : exit_ _ = true, Hb : context [negb (exit_ _)] |- _ =>
             by rewrite H in Hb
         end.
  all: repeat match goal with H : condvar_ _ = [] |- _ => rewrite H; clear H end.
  all: split_and?; try done; try lia.
  - by match goal with H : shutdowns _ = _ |- _ => rewrite H end.
  - by apply all_exited_spec.
Qed.

Lemma lifecycle_ok_construct n (w0 : world U T E) :
  lifecycle_ok (Z.to_nat n) (construct n w0) [].
Proof. split; [done|]. split; [apply length_replicate | done]. Qed.

Lemma run_accounted num_workers (w0 : world U T E) ls s tr :
  run choose ls (construct num_workers w0) = Some (s, tr) → accounted s tr.
Proof.
  intros Hrun.
  eapply (run_invariant choose accounted (accounted_step) ls _ [] s tr);
    [apply accounted_construct | exact Hrun].
Qed.

Lemma run_lifecycle_ok num_workers (w0 : world U T E) ls s tr :
  run choose ls (construct num_workers w0) = Some (s, tr) →
  lifecycle_ok (Z.to_nat num_workers) s tr.
Proof.
  intros Hrun.
  eapply (run_invariant choose (lifecycle_ok (Z.to_nat num_workers))
            (lifecycle_ok_step _) ls _ [] s tr);
    [apply lifecycle_ok_construct | exact Hrun].
Qed.

End ThreadInvariants.

Section ThreadProperties.
Context {U T E Args : Type} {FW : FuncWrapper T}.
Variable choose : list tid → nat.
#[local] Abbreviation system := (system U T E).
#[local] Abbreviation label := (label U T E Args).
#[local] Abbreviation obs := (obs U T E).
Implicit Types (s : system) (l : label) (ls : list label) (tr : list obs).

(** C3.  Take a pool constructed with any worker count and let its threads
    take any steps.  [Wait] can return in the state reached only if the queue
    is empty and no worker is executing an item; and then the items executed
    so far are, as a multiset, exactly the items submitted so far: each
    submission was executed once, none twice, none dropped. *)
Theorem wait_returns_when_all_work_is_done
    num_workers (w0 : world U T E) ls s tr c s' o :
  run choose ls (construct num_workers w0) = Some (s, tr) →
  exec choose (LWaitReturn c : label) s = Some (s', o) →
  work_ (pool (obj s)) = []
  ∧ (∀ w item, threads s !! w ≠ Some (Executing item))
  ∧ executed tr ≡ₚ enqueued tr
  ∧ length (executed tr) = length (enqueued tr).
Proof.
  intros Hrun Hwait. apply run_accounted in Hrun as [Hq Hw].
  simpl in Hwait. destruct (drained s) eqn:Hd; [|done].
  apply drained_spec in Hd as [Hwork Hidle].
  rewrite Hwork, app_nil_r in Hq. rewrite Hidle, app_nil_r in Hw.
  split; [done|]. split; [by intros w item; apply in_flight_nil_lookup|].
  rewrite Hq. split; [done | by rewrite Hw].
Qed.

(** C4.  Along any steps of the threads of a pool, the items dequeued so far,
    in the order of the dequeues, followed by the queue, are the items
    enqueued so far in the order of the enqueues.  So the [k]-th dequeue takes
    the [k]-th item enqueued: of two enqueued items, once the later one has
    been dequeued, the earlier one was dequeued before it. *)
Theorem dequeue_order_is_enqueue_order num_workers (w0 : world U T E) ls s tr :
  run choose ls (construct num_workers w0) = Some (s, tr) →
  enqueued tr = dequeued tr ++ work_ (pool (obj s))
  ∧ ∀ i j a b,
      i < j →
      enqueued tr !! i = Some a → enqueued tr !! j = Some b →
      is_Some (dequeued tr !! j) →
      dequeued tr !! i = Some a ∧ dequeued tr !! j = Some b.
Proof.
  intros Hrun. apply run_accounted in Hrun as [Hq _]. split; [done|].
  intros i j a b Hij Ha Hb Hj. apply lookup_lt_is_Some in Hj.
  rewrite Hq in Ha, Hb.
  rewrite lookup_app_l in Ha by lia. by rewrite lookup_app_l in Hb.
Qed.

(** C5.  In any state that the threads of a pool can reach: the teardown can
    begin only on a live pool, and it sets [exit_] and leaves no thread blocked
    in [condvar_]; it can finish only when every worker thread has exited;
    from its beginning on [exit_] stays set, no worker blocks in [condvar_]
    again, and it cannot begin a second time; a destroyed pool has all its
    workers exited and cannot be joined again.  So the shutdown happened at
    most once, and exactly once in a destroyed pool. *)
Theorem teardown_joins_all_workers_once num_workers (w0 : world U T E) ls s tr :
  run choose ls (construct num_workers w0) = Some (s, tr) →
  (∀ s' o, exec choose (LTeardown : label) s = Some (s', o) →
     life s = Alive ∧ life s' = Joining
     ∧ exit_ (pool (obj s')) = true ∧ condvar_ (pool (obj s')) = [])
  ∧ (∀ s' o, exec choose (LJoin : label) s = Some (s', o) →
     life s = Joining ∧ life s' = Destroyed
     ∧ Forall (λ t, t = Exiting) (threads s))
  ∧ (life s ≠ Alive →
     exit_ (pool (obj s)) = true ∧ condvar_ (pool (obj s)) = []
     ∧ shutdowns tr = 1 ∧ exec choose (LTeardown : label) s = None)
  ∧ (life s = Destroyed →
     Forall (λ t, t = Exiting) (threads s)
     ∧ exec choose (LJoin : label) s = None)
  ∧ shutdowns tr ≤ 1
  ∧ length (threads s) = Z.to_nat num_workers.
Proof.
  intros Hrun. apply run_lifecycle_ok in Hrun as (Hws & Hlen & Hlife).
  rewrite <- Hlen in Hws. split_and!.
  - intros s' o Hexec. simpl in Hexec. destruct (life s); simplify_eq. done.
  - intros s' o Hexec. simpl in Hexec. destruct (life s); simplify_eq.
    destruct (all_exited s) eqn:Hall; simplify_eq.
    split_and!; [done..|]. by apply all_exited_spec.
  - intros Hne. simpl. destruct (life s); [done|..]; destruct_and?; done.
  - intros Hd. simpl. rewrite Hd in *. destruct_and?; done.
  - destruct (life s); destruct_and?; lia.
  - done.
Qed.

End ThreadProperties.

Lemma wait_returns_when_all_work_is_done_witness :
  ∃ s tr,
    run Demo.first_waiter Demo.schedule (construct 2 (World 0 ∅)) = Some (s, tr)
    ∧ exec (Args := unit) Demo.first_waiter (LWaitReturn 9) s
      = Some (s, [ObsWaitReturn 9])
    ∧ enqueued tr = [Demo.incr; Demo.twice]
    ∧ user (mem (obj s)) = 1
    ∧ (work_ (pool (obj s)) = []
       ∧ (∀ w item, threads s !! w ≠ Some (Executing item))
       ∧ executed tr ≡ₚ enqueued tr
       ∧ length (executed tr) = length (enqueued tr)).
Proof.
  eexists _, _. split; [vm_compute; reflexivity|].
  split; [reflexivity|]. split; [reflexivity|]. split; [reflexivity|].
  eapply (wait_returns_when_all_work_is_done Demo.first_waiter 2 (World 0 ∅)
            Demo.schedule _ _ 9); reflexivity.
Defined.

Lemma dequeue_order_is_enqueue_order_witness :
  ∃ s tr,
    run Demo.first_waiter Demo.schedule (construct 2 (World 0 ∅)) = Some (s, tr)
    ∧ enqueued tr = [Demo.incr; Demo.twice]
    ∧ dequeued tr = [Demo.incr; Demo.twice]
    ∧ executed tr = [Demo.twice; Demo.incr]
    ∧ (enqueued tr = dequeued tr ++ work_ (pool (obj s))
       ∧ ∀ i j a b,
           i < j →
           enqueued tr !! i = Some a → enqueued tr !! j = Some b →
           is_Some (dequeued tr !! j) →
           dequeued tr !! i = Some a ∧ dequeued tr !! j = Some b).
Proof.
  eexists _, _. split; [vm_compute; reflexivity|].
  split; [reflexivity|]. split; [reflexivity|]. split; [reflexivity|].
  eapply (dequeue_order_is_enqueue_order Demo.first_waiter 2 (World 0 ∅)
            Demo.schedule); reflexivity.
Defined.

Lemma teardown_joins_all_workers_once_witness :
  ∃ s tr,
    run Demo.first_waiter (Demo.schedule ++ Demo.shutdown)
      (construct 2 (World 0 ∅)) = Some (s, tr)
    ∧ life s = Destroyed
    ∧ exit_ (pool (obj s)) = true
    ∧ condvar_ (pool (obj s)) = []
    ∧ shutdowns tr = 1
    ∧ exec (Args := unit) Demo.first_waiter LTeardown s = None
    ∧ Forall (λ t, t = Exiting) (threads s)
    ∧ exec (Args := unit) Demo.first_waiter LJoin s = None
    ∧ length (threads s) = 2.
Proof.
  assert (∃ s tr,
            run Demo.first_waiter (Demo.schedule ++ Demo.shutdown)
              (construct 2 (World 0 ∅)) = Some (s, tr)
            ∧ life s = Destroyed) as (s & tr & Hrun & Hlife).
  { eexists _, _. split; [vm_compute; reflexivity | reflexivity]. }
  exists s, tr. split; [exact Hrun|]. split; [exact Hlife|].
  pose proof (teardown_joins_all_workers_once Demo.first_waiter 2 (World 0 ∅)
                (Demo.schedule ++ Demo.shutdown) s tr Hrun)
    as (_ & _ & Hdown & Hdestroyed & _ & Hlen).
  destruct Hdown as (? & ? & ? & ?); [by rewrite Hlife|].
  destruct Hdestroyed as [? ?]; [done|].
  split_and!; done.
Defined.

(** ** More on the wrapped work item *)

Section WrapperProperties.
Context {U E Args : Type}.


(** X2.  Whatever the function does and whatever the slot holds, a run of the
    wrapped item calls the function once, leaves every other shared state as
    it was, and either leaves its own slot as it was too, and then does not
    return normally, or turns its slot from empty into the function's value
    and returns.  It never stores a failure and never changes a slot that is
    already written. *)
Theorem wrapped_item_changes_only_its_empty_slot {ReturnT}
    (func : callable U E Args ReturnT) (promise : addr) (args : Args)
    (w : world U ReturnT E) :
  ∃ o w' tr,
    GetWrapped (FuncWrapper := FuncWrapper_ReturnT ReturnT) func promise args w
      = (o, w', tr)
    ∧ user w' = (func args (user w)).2
    ∧ (∀ q, q ≠ promise → heap w' !! q = heap w !! q)
    ∧ ((heap w' !! promise = heap w !! promise
        ∧ tr = [EvCall] ∧ o ≠ Returned tt)
       ∨ ∃ v b, (func args (user w)).1 = Ret v
                ∧ heap w !! promise = Some (SharedState Empty b)
                ∧ heap w' !! promise = Some (SharedState (Value v) b)
                ∧ tr = [EvCall; EvSetValue promise] ∧ o = Returned tt).
Proof.
  unfold GetWrapped, FuncWrapper_ReturnT, bind, call.
  destruct (func args (user w)) as [[v|e] u]; simpl.
  - unfold set_value, bind, get. simpl.
    destruct (heap w !! promise) as [[[] b]|] eqn:Hp; simpl;
      eexists _, _, _; (split; [reflexivity|]); simpl;
      (split; [done|]); try (split; [done|]; left; by rewrite ?Hp).
    split.
    + intros q Hq. by rewrite lookup_insert_ne.
    + right. exists v, b. by rewrite lookup_insert_eq.
  - eexists _, _, _. split; [reflexivity|]. simpl. split_and!; [done..|].
    by left.
Qed.

(** X3.  Run on a slot that is already written, the item of a function that
    returns still calls the function, whose effect on the application's state
    takes place, and then [set_value] throws [promise_already_satisfied] out
    of the item: the stored value is not overwritten. *)
Theorem wrapped_item_never_overwrites {ReturnT}
    (func : callable U E Args ReturnT) (promise : addr) (args : Args)
    (w : world U ReturnT E) st v u' :
  heap w !! promise = Some st → result st ≠ Empty →
  func args (user w) = (Ret v, u') →
  GetWrapped (FuncWrapper := FuncWrapper_ReturnT ReturnT) func promise args w
  = (Raised (FutureError promise_already_satisfied), World u' (heap w), [EvCall]).
Proof.
  intros Hp Hr Hf. unfold GetWrapped, FuncWrapper_ReturnT, bind, call.
  rewrite Hf. erewrite set_value_twice; [reflexivity | exact Hp | exact Hr].
Qed.

End WrapperProperties.

Lemma wrapped_item_never_overwrites_witness :
  heap BenchDemo.satisfied !! 0 = Some (SharedState (Value 5) true)
  ∧ Demo.answer tt (user BenchDemo.satisfied) = (Ret 41, 1)
  ∧ GetWrapped (FuncWrapper := FuncWrapper_ReturnT nat)
      Demo.answer 0 tt BenchDemo.satisfied
    = (Raised (FutureError promise_already_satisfied),
       World 1 (heap BenchDemo.satisfied), [EvCall]).
Proof.
  split; [reflexivity|]. split; [reflexivity|].
  by apply (wrapped_item_never_overwrites Demo.answer 0 tt BenchDemo.satisfied
              (SharedState (Value 5) true) 41 1).
Defined.

(** ** More on the submission *)

Section SubmissionWorld.
Context {U T E Args : Type} {FW : FuncWrapper T}.
Variable choose : list tid → nat.
Implicit Types (s : pstate U T E) (func : callable U E Args T) (args : Args).


End SubmissionWorld.

(** ** The benchmark's loops *)

Lemma counting_returns : ∀ n u, ∃ u', BenchDemo.counting n u = (Ret tt, u').
Proof. intros n u. by exists (S u). Qed.

Section BenchmarkFacts.
Context {U E : Type}.
Variable choose : list tid → nat.
Variable CpuTask : Z → U → call_result unit E * U.
Implicit Types (s : pstate U unit E) (w : world U unit E)
  (futures : list future) (ps qs : list addr).

Lemma take_S_insert futures i f :
  i < length futures →
  take (S i) (<[i := f]> futures) = take i futures ++ [f].
Proof.
  intros Hi. rewrite insert_take_drop by done.
  rewrite take_app_ge; rewrite length_take_le by lia; [|lia].
  replace (S i - i) with 1 by lia. done.
Qed.

(** [k] turns of the loop from index [i] on, with the mutex free. *)
Lemma submit_loop_run k : ∀ i futures s,
  mu_ (pool s) = false → i + k ≤ length futures →
  ∃ ps s' tr,
    submit_loop choose CpuTask k i futures s
      = (Returned (take i futures ++ (Future ∘ Some <$> ps)
                   ++ drop (i + k) futures), s', tr)
    ∧ length ps = k
    ∧ NoDup ps
    ∧ (∀ p, p ∈ ps → heap (mem s) !! p = None
                      ∧ heap (mem s') !! p = Some (SharedState Empty true))
    ∧ (∀ q, q ∉ ps → heap (mem s') !! q = heap (mem s) !! q)
    ∧ user (mem s') = user (mem s)
    ∧ work_ (pool s') = work_ (pool s) ++ (task_item CpuTask <$> ps)
    ∧ condvar_ (pool s') `sublist_of` condvar_ (pool s)
    ∧ length (condvar_ (pool s')) = length (condvar_ (pool s)) - k
    ∧ exit_ (pool s') = exit_ (pool s)
    ∧ num_workers_ (pool s') = num_workers_ (pool s)
    ∧ workers_ (pool s') = workers_ (pool s)
    ∧ mu_ (pool s') = false
    ∧ work_done_condvar_ (pool s') = work_done_condvar_ (pool s)
    ∧ EvCall ∉ tr.
Proof.
  induction k as [|k IH]; intros i futures s Hmu Hlen.
  - exists [], s, []. simpl.
    rewrite Nat.add_0_r, take_drop, app_nil_r, Nat.sub_0_r.
    split_and!; try done;
      [apply NoDup_nil_2 | by intros p ?%elem_of_nil | apply not_elem_of_nil].
  - simpl. unfold bind. rewrite ScheduleAndGetFuture_run by done.
    set (s1 := after_submission choose s (task CpuTask) tt).
    destruct (IH (S i) (<[i := Future (Some (slot_of s))]> futures) s1)
      as (ps & s' & tr & Hrun & Hps & Hnd & Hnew & Hold & Huser & Hwork
          & Hsub & Hcv & Hexit & Hnum & Hws & Hmu' & Hdone & Hcall);
      [done | rewrite length_insert; lia |].
    rewrite Hrun. exists (slot_of s :: ps), s'. eexists.
    assert (Hp : slot_of s ∉ ps).
    { intros Hin. destruct (Hnew _ Hin) as [Hnone _].
      subst s1. simpl in Hnone. by rewrite lookup_insert_eq in Hnone. }
    assert (Hs1 : ∀ q, q ≠ slot_of s → heap (mem s1) !! q = heap (mem s) !! q).
    { intros q Hq. subst s1. simpl. by rewrite !lookup_insert_ne. }
    pose proof (notify_one_spec choose (condvar_ (pool s))) as Hn.
    split_and!.
    + rewrite take_S_insert by lia.
      rewrite drop_insert_lt by lia.
      rewrite <- app_assoc. simpl.
      by replace (i + S k) with (S (i + k)) by lia.
    + simpl. by rewrite Hps.
    + by apply NoDup_cons_2.
    + intros q [Hqp|Hq]%elem_of_cons.
      * rewrite Hqp. split; [apply fresh_unallocated|].
        rewrite (Hold _ Hp). apply slot_after_submission.
      * destruct (Hnew q Hq) as [Hnone Hsome]. split; [|done].
        rewrite <- Hs1; [done|]. by intros ->.
    + intros q Hq. apply not_elem_of_cons in Hq as [Hqp Hq].
      rewrite Hold by done. by apply Hs1.
    + by rewrite Huser.
    + rewrite Hwork. subst s1. simpl. by rewrite <- app_assoc.
    + etrans; [exact Hsub|]. subst s1. simpl. apply sublist_delete.
    + rewrite Hcv. subst s1. cbn [after_submission pool condvar_].
      destruct (notify_one choose (condvar_ (pool s))).2.
      * destruct Hn as (l1 & l2 & Hw & ->). rewrite Hw, !length_app. simpl. lia.
      * destruct Hn as [Hw ->]. rewrite Hw. done.
    + by rewrite Hexit.
    + by rewrite Hnum.
    + by rewrite Hws.
    + done.
    + by rewrite Hdone.
    + rewrite !not_elem_of_cons. split_and!; done.
Qed.

Lemma invoke_all_cons (item : WorkItem U unit E) items w :
  invoke_all (item :: items) w = invoke_all items (func item w).1.2.
Proof. reflexivity. Qed.

Lemma wait_loop_ready ps w :
  (∀ p, p ∈ ps → ∃ st, heap w !! p = Some st ∧ result st ≠ Empty) →
  wait_loop (Future ∘ Some <$> ps) w = WaitReady.
Proof.
  induction ps as [|p ps IH]; intros Hall; [done|]. simpl.
  destruct (Hall p) as (st & Hst & Hne); [apply list_elem_of_here|].
  unfold future_wait. simpl. rewrite Hst.
  destruct (result st) eqn:Hr; [done | |];
    apply IH; intros q Hq; apply Hall; by apply list_elem_of_further.
Qed.

Lemma wait_loop_blocks ps w :
  (∀ p, p ∈ ps → ∃ st, heap w !! p = Some st) →
  (∃ p st, p ∈ ps ∧ heap w !! p = Some st ∧ result st = Empty) →
  wait_loop (Future ∘ Some <$> ps) w = WaitBlocks.
Proof.
  induction ps as [|p ps IH]; intros Hall (q & st & Hq & Hst & He).
  - by apply elem_of_nil in Hq.
  - simpl. unfold future_wait. simpl.
    destruct (Hall p) as [stp Hp]; [apply list_elem_of_here|]. rewrite Hp.
    destruct (result stp) eqn:Hr; [done | |];
      (apply IH; [intros q' Hq'; apply Hall; by apply list_elem_of_further|];
       apply elem_of_cons in Hq as [->|Hq]; [congruence | eauto]).
Qed.

Section Returning.
Hypothesis CpuTask_returns : ∀ n u, ∃ u', CpuTask n u = (Ret tt, u').

(** Invoking the items of distinct empty slots, in any order, fills exactly
    those slots. *)
Lemma invoke_all_fills qs : ∀ w,
  NoDup qs →
  (∀ p, p ∈ qs → heap w !! p = Some (SharedState Empty true)) →
  (∀ p, p ∈ qs →
     heap (invoke_all (task_item CpuTask <$> qs) w) !! p
     = Some (SharedState (Value tt) true))
  ∧ (∀ q, q ∉ qs →
     heap (invoke_all (task_item CpuTask <$> qs) w) !! q = heap w !! q).
Proof using CpuTask_returns.
  induction qs as [|p qs IH]; intros w Hnd Hempty.
  - split; [by intros p ?%elem_of_nil | done].
  - apply NoDup_cons in Hnd as [Hp Hnd].
    destruct (CpuTask_returns kNumIterations (user w)) as [u' Hu].
    assert (Hrun : func (task_item CpuTask p) w
                   = (Returned tt,
                      World u' (<[p := SharedState (Value tt) true]> (heap w)),
                      [EvCall; EvSetValue p])).
    { apply (GetWrapped_void_returns (task CpuTask) tt p w u'
               (SharedState Empty true)); [exact Hu | | done].
      apply Hempty, list_elem_of_here. }
    rewrite fmap_cons, invoke_all_cons, Hrun. cbn [fst snd].
    destruct (IH (World u' (<[p := SharedState (Value tt) true]> (heap w))) Hnd)
      as [Hfilled Hrest].
    { intros q Hq. simpl. rewrite lookup_insert_ne by (by intros ->).
      apply Hempty. by apply list_elem_of_further. }
    split.
    + intros q [->|Hq]%elem_of_cons; [|by apply Hfilled].
      rewrite Hrest by done. simpl. apply lookup_insert_eq.
    + intros q [Hqp Hq]%not_elem_of_cons.
      rewrite Hrest by done. simpl. by rewrite lookup_insert_ne.
Qed.

End Returning.

End BenchmarkFacts.

Section BenchmarkProperties.
Context {U E : Type}.
Variable choose : list tid → nat.
Variable CpuTask : Z → U → call_result unit E * U.
Implicit Types (s : pstate U unit E) (futures : list future)
  (ps qs : list addr).

(** X5.  With the mutex free, the submission loop over an array of [n]
    futures returns the array filled with [n] futures on pairwise distinct
    slots, none of which was in use before and all of which are empty
    afterwards; the [n] work items stand at the back of the queue in the order
    of the array, the [i]-th item writing the slot of the [i]-th future; the
    loop wakes [n] of the blocked workers, or all of them if they are fewer,
    and nobody else; it runs no task and leaves the application's state, the
    other shared states and the rest of the pool object as they were. *)
Theorem submission_loop_fills_array futures s :
  mu_ (pool s) = false →
  ∃ ps s1 tr,
    submit_all choose CpuTask futures s
      = (Returned (Future ∘ Some <$> ps), s1, tr)
    ∧ length ps = length futures
    ∧ NoDup ps
    ∧ (∀ p, p ∈ ps → heap (mem s) !! p = None
                      ∧ heap (mem s1) !! p = Some (SharedState Empty true))
    ∧ (∀ q, q ∉ ps → heap (mem s1) !! q = heap (mem s) !! q)
    ∧ user (mem s1) = user (mem s)
    ∧ work_ (pool s1) = work_ (pool s) ++ (task_item CpuTask <$> ps)
    ∧ condvar_ (pool s1) `sublist_of` condvar_ (pool s)
    ∧ length (condvar_ (pool s1))
      = length (condvar_ (pool s)) - length futures
    ∧ exit_ (pool s1) = exit_ (pool s)
    ∧ num_workers_ (pool s1) = num_workers_ (pool s)
    ∧ workers_ (pool s1) = workers_ (pool s)
    ∧ mu_ (pool s1) = false
    ∧ work_done_condvar_ (pool s1) = work_done_condvar_ (pool s)
    ∧ EvCall ∉ tr.
Proof.
  intros Hmu.
  destruct (submit_loop_run choose CpuTask (length futures) 0 futures s Hmu)
    as (ps & s1 & tr & Hrun & Hrest); [done|].
  exists ps, s1, tr. split; [|exact Hrest].
  unfold submit_all. rewrite Hrun. simpl.
  by rewrite drop_all, app_nil_r.
Qed.

(** X6.  Let the task always return.  After the submission loop, let any of
    the enqueued items, each at most once and in any order, be invoked.  Then
    the wait loop over the futures returns if every item was invoked, and is
    stuck in a [wait] if some item was not: one iteration of the benchmark
    ends exactly when all its tasks have been run. *)
Theorem benchmark_waits_until_all_tasks_ran futures s :
  (∀ n u, ∃ u', CpuTask n u = (Ret tt, u')) →
  mu_ (pool s) = false →
  ∃ ps s1 tr,
    submit_all choose CpuTask futures s
      = (Returned (Future ∘ Some <$> ps), s1, tr)
    ∧ work_ (pool s1) = work_ (pool s) ++ (task_item CpuTask <$> ps)
    ∧ ∀ qs, NoDup qs → qs ⊆ ps →
        (ps ⊆ qs →
         wait_loop (Future ∘ Some <$> ps)
           (invoke_all (task_item CpuTask <$> qs) (mem s1)) = WaitReady)
        ∧ (¬ ps ⊆ qs →
           wait_loop (Future ∘ Some <$> ps)
             (invoke_all (task_item CpuTask <$> qs) (mem s1)) = WaitBlocks).
Proof.
  intros Hret Hmu.
  destruct (submit_loop_run choose CpuTask (length futures) 0 futures s Hmu)
    as (ps & s1 & tr & Hrun & Hps & Hnd & Hnew & _ & _ & Hwork & _); [done|].
  exists ps, s1, tr. unfold submit_all. rewrite Hrun. simpl.
  rewrite drop_all, app_nil_r.
  split_and!; try done.
  intros qs Hqs Hsub.
  set (w := invoke_all (task_item CpuTask <$> qs) (mem s1)).
  destruct (invoke_all_fills CpuTask Hret qs (mem s1) Hqs) as [Hfilled Hrest].
  { intros p Hp. by apply Hnew, Hsub. }
  split.
  - intros Hall. apply wait_loop_ready. intros p Hp.
    eexists. split; [by apply Hfilled, Hall | done].
  - intros Hnot. apply wait_loop_blocks.
    + intros p Hp. destruct (decide (p ∈ qs)) as [Hin|Hout].
      * eexists. by apply Hfilled.
      * eexists. subst w. rewrite Hrest by done. by apply Hnew.
    + destruct (decide (Forall (λ p, p ∈ qs) ps)) as [Hall|Hex].
      * exfalso. apply Hnot. intros p Hp.
        by eapply (proj1 (Forall_forall _ _) Hall).
      * apply not_Forall_Exists in Hex; [|apply _].
        apply Exists_exists in Hex as (p & Hp & Hout).
        exists p. eexists. split; [done|]. subst w. rewrite Hrest by done.
        split; [by apply Hnew | done].
Qed.

End BenchmarkProperties.

Lemma submission_loop_fills_array_witness :
  mu_ (pool (Demo.start (T := unit))) = false
  ∧ ∃ ps s1 tr,
      submit_all Demo.first_waiter BenchDemo.counting
        (replicate 3 (Future None)) Demo.start
        = (Returned (Future ∘ Some <$> ps), s1, tr)
      ∧ length ps = length (replicate 3 (Future None))
      ∧ NoDup ps
      ∧ (∀ p, p ∈ ps →
           heap (mem (Demo.start (T := unit))) !! p = None
           ∧ heap (mem s1) !! p = Some (SharedState Empty true))
      ∧ (∀ q, q ∉ ps → heap (mem s1) !! q = heap (mem Demo.start) !! q)
      ∧ user (mem s1) = user (mem (Demo.start (T := unit)))
      ∧ work_ (pool s1)
        = work_ (pool Demo.start) ++ (task_item BenchDemo.counting <$> ps)
      ∧ condvar_ (pool s1) `sublist_of` condvar_ (pool (Demo.start (T := unit)))
      ∧ length (condvar_ (pool s1))
        = length (condvar_ (pool (Demo.start (T := unit))))
          - length (replicate 3 (Future None))
      ∧ exit_ (pool s1) = exit_ (pool (Demo.start (T := unit)))
      ∧ num_workers_ (pool s1) = num_workers_ (pool (Demo.start (T := unit)))
      ∧ workers_ (pool s1) = workers_ (pool (Demo.start (T := unit)))
      ∧ mu_ (pool s1) = false
      ∧ work_done_condvar_ (pool s1)
        = work_done_condvar_ (pool (Demo.start (T := unit)))
      ∧ EvCall ∉ tr.
Proof.
  split; [reflexivity|].
  exact (submission_loop_fills_array Demo.first_waiter BenchDemo.counting
           (replicate 3 (Future None)) Demo.start eq_refl).
Defined.

Lemma benchmark_waits_until_all_tasks_ran_witness :
  mu_ (pool (Demo.start (T := unit))) = false
  ∧ ∃ ps s1 tr,
      submit_all Demo.first_waiter BenchDemo.counting
        (replicate 3 (Future None)) Demo.start
        = (Returned (Future ∘ Some <$> ps), s1, tr)
      ∧ work_ (pool s1)
        = work_ (pool Demo.start) ++ (task_item BenchDemo.counting <$> ps)
      ∧ ∀ qs, NoDup qs → qs ⊆ ps →
          (ps ⊆ qs →
           wait_loop (Future ∘ Some <$> ps)
             (invoke_all (task_item BenchDemo.counting <$> qs) (mem s1))
           = WaitReady)
          ∧ (¬ ps ⊆ qs →
             wait_loop (Future ∘ Some <$> ps)
               (invoke_all (task_item BenchDemo.counting <$> qs) (mem s1))
             = WaitBlocks).
Proof.
  split; [reflexivity|].
  exact (benchmark_waits_until_all_tasks_ran Demo.first_waiter
           BenchDemo.counting (replicate 3 (Future None)) Demo.start
           counting_returns eq_refl).
Defined.
